(** * Firebase REST client (firebase.cpp / firebase.h): model and properties

    The client is a thin wrapper over Qt.  The development has three layers:

    - [QString], [QByteArray], [QIODevice]: the few Qt value operations the
      client calls, written out with their documented out-of-range behaviour;
    - [QJson]: the JSON codec of Qt as an interface, with one reference
      instance used to run the client on concrete byte strings;
    - [Firebase]: the methods of the class, one definition per C++ method,
      threading the observable effects (signals, diagnostics, requests handed
      to the network manager, released replies) through a small state monad. *)

From Stdlib Require Import Strings.Byte Strings.String.
From Stdlib Require Import List NArith ZArith Lia Bool.
Import ListNotations.

Set Warnings "-register-all".

Local Open Scope Z_scope.

(** ** Generic list helpers *)

Section ListHelpers.
Context {A : Type}.

Fixpoint dropWhile (p : A -> bool) (l : list A) : list A :=
  match l with
  | [] => []
  | x :: tl => if p x then dropWhile p tl else l
  end.

(** Strip the elements satisfying [p] from both ends. *)
Definition strip (p : A -> bool) (l : list A) : list A :=
  rev (dropWhile p (rev (dropWhile p l))).

(** The last [n] elements; the whole list when [n] is at least its length,
    nothing when [n] is negative ([QByteArray::right]). *)
Definition lastn (n : Z) (l : list A) : list A :=
  if Z.of_nat (length l) <=? n then l
  else skipn (length l - Z.to_nat n) l.

(** Indexing with a C++ [int]: defined only inside [0, size). *)
Definition at_ (l : list A) (i : Z) : option A :=
  if (0 <=? i) && (i <? Z.of_nat (length l)) then nth_error l (Z.to_nat i)
  else None.

Variable eqb : A -> A -> bool.

Fixpoint list_eqb (l1 l2 : list A) : bool :=
  match l1, l2 with
  | [], [] => true
  | x :: t1, y :: t2 => eqb x y && list_eqb t1 t2
  | _, _ => false
  end.

(** Position of the first element equal to [c], counted from [from];
    [-1] when there is none. *)
Fixpoint indexFrom (c : A) (l : list A) (from : Z) : Z :=
  match l with
  | [] => -1
  | x :: tl => if eqb x c then from else indexFrom c tl (from + 1)
  end.
End ListHelpers.

(** ** QChar and QString *)

Module QChar.
(** A UTF-16 code unit. *)
Definition t := N.

(** [QChar(char)]: the Latin-1 code point of the byte. *)
Definition fromLatin1 (c : byte) : t := Byte.to_N c.

Definition eqb (a b : t) : bool := N.eqb a b.

(** [QChar::isSpace]: the ASCII controls 9..13, the space, NEL, NBSP and
    the code points of the Unicode separator categories. *)
Definition isSpace (c : t) : bool :=
  (N.eqb c 32 || ((9 <=? c) && (c <=? 13))
   || ((127 <? c) &&
       (N.eqb c 133 || N.eqb c 160 || N.eqb c 5760
        || ((8192 <=? c) && (c <=? 8202))
        || N.eqb c 8232 || N.eqb c 8233 || N.eqb c 8239
        || N.eqb c 8287 || N.eqb c 12288)))%N.
End QChar.

Module QString.
Definition t := list QChar.t.

(** A QString built from a Latin-1 C string literal. *)
Definition lit (s : string) : t :=
  map QChar.fromLatin1 (list_byte_of_string s).

Definition length (s : t) : Z := Z.of_nat (List.length s).
Definition at' (s : t) (i : Z) : option QChar.t := at_ s i.
(** [QString::right] compares [n] as an unsigned number: a negative [n]
    gives the whole string. *)
Definition right (s : t) (n : Z) : t := if n <? 0 then s else lastn n s.
Definition trimmed (s : t) : t := strip QChar.isSpace s.
Definition append (s x : t) : t := s ++ x.
Definition appendChar (s : t) (c : byte) : t := s ++ [QChar.fromLatin1 c].
Definition prependChar (s : t) (c : byte) : t := QChar.fromLatin1 c :: s.
Definition eqb (a b : t) : bool := list_eqb QChar.eqb a b.
End QString.

(** ** QByteArray *)

Module QByteArray.
Definition t := list byte.

Definition lit (s : string) : t := list_byte_of_string s.

(** The C-locale [isspace]: tab, LF, VT, FF, CR and the space. *)
Definition isSpace (b : byte) : bool :=
  let n := Byte.to_N b in
  (N.eqb n 32 || ((9 <=? n) && (n <=? 13)))%N.

Definition size (b : t) : Z := Z.of_nat (List.length b).
Definition isEmpty (b : t) : bool :=
  match b with [] => true | _ => false end.
Definition indexOf (b : t) (c : byte) : Z := indexFrom Byte.eqb c b 0.
Definition right (b : t) (n : Z) : t := lastn n b.
Definition trimmed (b : t) : t := strip isSpace b.
Definition eqb (a b : t) : bool := list_eqb Byte.eqb a b.
End QByteArray.

(** [QString::toUtf8].  Code units below 0x80 are one byte, below 0x800 two
    bytes, the rest of the basic plane three bytes; a high surrogate followed
    by a low one is combined into a four-byte sequence and a lone surrogate
    is replaced by U+FFFD. *)
Module Utf8.
Definition byte_of (n : N) : byte :=
  match Byte.of_N (n mod 256) with Some b => b | None => x00 end.

Definition isHigh (c : N) : bool := ((55296 <=? c) && (c <=? 56319))%N.
Definition isLow (c : N) : bool := ((56320 <=? c) && (c <=? 57343))%N.

Definition encode (u : N) : list byte :=
  (if u <? 128 then [byte_of u]
   else if u <? 2048 then [byte_of (192 + u / 64); byte_of (128 + u mod 64)]
   else if u <? 65536 then
     [byte_of (224 + u / 4096); byte_of (128 + (u / 64) mod 64);
      byte_of (128 + u mod 64)]
   else
     [byte_of (240 + u / 262144); byte_of (128 + (u / 4096) mod 64);
      byte_of (128 + (u / 64) mod 64); byte_of (128 + u mod 64)])%N.

Fixpoint toUtf8 (s : QString.t) : QByteArray.t :=
  match s with
  | [] => []
  | c :: tl =>
      if isHigh c then
        match tl with
        | d :: tl' =>
            if isLow d
            then encode (65536 + (c - 55296) * 1024 + (d - 56320))%N
                 ++ toUtf8 tl'
            else encode 65533%N ++ toUtf8 tl
        | [] => encode 65533%N
        end
      else if isLow c then encode 65533%N ++ toUtf8 tl
      else encode c ++ toUtf8 tl
  end.
End Utf8.

(** ** QUrl, QNetworkRequest, QBuffer, QNetworkReply *)

Module QUrl.
(** A URL is kept as the text it was made from; [isEmpty] holds for the
    default-constructed URL and for the one made from an empty string. *)
Definition t := QString.t.
Definition fromString (s : QString.t) : t := s.
Definition isEmpty (u : t) : bool :=
  match u with [] => true | _ => false end.
End QUrl.

Module QNetworkRequest.
Record t := make { url : QUrl.t; rawHeaders : list (QByteArray.t * QByteArray.t) }.

Definition new (u : QUrl.t) : t := {| url := u; rawHeaders := [] |}.

Definition setRawHeader (r : t) (name value : QByteArray.t) : t :=
  {| url := url r;
     rawHeaders :=
       filter (fun h => negb (QByteArray.eqb (fst h) name)) (rawHeaders r)
       ++ [(name, value)] |}.

(** [setHeader(ContentTypeHeader, v)] sets the raw header [Content-Type]. *)
Definition ContentTypeHeader : QByteArray.t := QByteArray.lit "Content-Type".
Definition setHeader (r : t) (known value : QByteArray.t) : t :=
  setRawHeader r known value.
End QNetworkRequest.

Module QBuffer.
Record t := make { buf : QByteArray.t; pos : nat; isOpen : bool }.

Definition new : t := {| buf := []; pos := 0; isOpen := false |}.
Definition open (b : t) : t := {| buf := buf b; pos := 0; isOpen := true |}.

(** Writing overwrites from the current position and extends the array. *)
Definition write (b : t) (data : QByteArray.t) : t :=
  if isOpen b then
    {| buf := firstn (pos b) (buf b) ++ data
              ++ skipn (pos b + length data) (buf b);
       pos := (pos b + length data)%nat; isOpen := true |}
  else b.

Definition seek (b : t) (p : nat) : t :=
  if isOpen b && (p <=? length (buf b))%nat
  then {| buf := buf b; pos := p; isOpen := true |}
  else b.

Definition close (b : t) : t := {| buf := buf b; pos := 0; isOpen := false |}.

(** What an upload from the device transmits: the bytes of its array from
    the current position on. *)
Definition upload (b : t) : QByteArray.t := skipn (pos b) (buf b).
End QBuffer.

Module QNetworkReply.
(** A reply as the handlers see it: its identity, the bytes received and
    not yet read, and the redirection target attribute (empty when the
    attribute is not set). *)
Record t := make {
  handle : nat;
  available : QByteArray.t;
  redirectionTarget : QUrl.t
}.

Fixpoint splitLine (b : QByteArray.t) : QByteArray.t * QByteArray.t :=
  match b with
  | [] => ([], [])
  | c :: tl =>
      if Byte.eqb c x0a then ([c], tl)
      else let (l, r) := splitLine tl in (c :: l, r)
  end.

(** [readLine()]: the bytes up to and including the first newline, or all
    of them when there is none; they are removed from the device. *)
Definition readLine (r : t) : QByteArray.t * t :=
  let (l, rest) := splitLine (available r) in
  (l, {| handle := handle r; available := rest;
         redirectionTarget := redirectionTarget r |}).

Definition readAll (r : t) : QByteArray.t * t :=
  (available r, {| handle := handle r; available := [];
                   redirectionTarget := redirectionTarget r |}).
End QNetworkReply.

(** ** The JSON codec, as the client uses it *)

Class QJson := {
  QJsonObject : Type;
  QJsonDocument : Type;
  QJsonParseError : Type;
  (** [QJsonDocument::fromJson(data, &error)] *)
  fromJson : QByteArray.t -> QJsonDocument * QJsonParseError;
  (** [doc.toJson(QJsonDocument::Compact)] *)
  toJsonCompact : QJsonDocument -> QByteArray.t;
  isObject : QJsonDocument -> bool;
  object : QJsonDocument -> QJsonObject
}.

(** ** Results of operations that index a string *)

Inductive result (A : Type) : Type :=
| Ok (a : A)
| IndexOutOfRange (size index : Z).
Arguments Ok {A} a.
Arguments IndexOutOfRange {A} size index.

(** ** The Firebase class *)

Module Firebase.
Section WithJson.
Context {json : QJson}.

(** *** Observable effects *)

Inductive Signal : Type :=
| eventResponseReady (replyData : QByteArray.t)
| eventKeepAlive
| eventPut (changedData : QJsonObject)
| functionResponseReady (response : QByteArray.t).

Inductive ReplySignal : Type := readyRead | finished.

Inductive Slot : Type :=
| slot_functionFinished
| slot_eventFinished
| slot_eventReadyRead
| slot_getValueLambda.

Inductive LogItem : Type :=
| Text (s : string)
| Bytes (b : QByteArray.t)
| ParseError (e : QJsonParseError)
| ParseErrorString (e : QJsonParseError).

Inductive Effect : Type :=
| Emit (s : Signal)
| Warning (line : list LogItem)
| Debug (line : list LogItem)
| Request (verb : QByteArray.t) (request : QNetworkRequest.t)
          (body : option QByteArray.t) (reply : nat)
| Connect (reply : nat) (signal : ReplySignal) (slot : Slot)
| DeleteLater (reply : nat).

(** The effects so far, oldest first, and the number of replies the
    network manager has created. *)
Record World := mkWorld { effects : list Effect; created : nat }.

Definition M (A : Type) : Type := World -> A * World.
Definition ret {A} (a : A) : M A := fun w => (a, w).
Definition bind {A B} (m : M A) (k : A -> M B) : M B :=
  fun w => let (a, w') := m w in k a w'.
Definition tell (e : Effect) : M unit :=
  fun w => (tt, {| effects := effects w ++ [e]; created := created w |}).

Notation "x <- m ;; k" := (bind m (fun x => k))
  (at level 61, m at next level, right associativity).
Notation "m ;; k" := (bind m (fun _ => k))
  (at level 61, right associativity).

Definition emit (s : Signal) : M unit := tell (Emit s).
Definition qWarning (line : list LogItem) : M unit := tell (Warning line).
Definition qDebug (line : list LogItem) : M unit := tell (Debug line).
Definition deleteLater (reply : QNetworkReply.t) : M unit :=
  tell (DeleteLater (QNetworkReply.handle reply)).
Definition connect (reply : nat) (s : ReplySignal) (slot : Slot) : M unit :=
  tell (Connect reply s slot).

(** [mManager->get] and [mManager->sendCustomRequest]: the request is handed
    to the manager, which returns a new reply. *)
Definition issue (verb : QByteArray.t) (request : QNetworkRequest.t)
           (body : option QByteArray.t) : M nat :=
  fun w =>
    (created w,
     {| effects := effects w ++ [Request verb request body (created w)];
        created := S (created w) |}).
Definition get (request : QNetworkRequest.t) : M nat :=
  issue (QByteArray.lit "GET") request None.
Definition sendCustomRequest (request : QNetworkRequest.t)
           (verb : QByteArray.t) (data : QBuffer.t) : M nat :=
  issue verb request (Some (QBuffer.upload data)).

(** *** Fields *)

Record t := mk {
  mFirebaseFunctionHost : QString.t;
  mFirebaseToken : QString.t;
  mHost : QString.t
}.

(** *** Private helpers *)

Definition forceEndChar (string : QString.t) (endCh : byte)
  : result QString.t :=
  match QString.at' string (QString.length string - 1) with
  | None => IndexOutOfRange (QString.length string) (QString.length string - 1)
  | Some c =>
      if negb (QChar.eqb c (QChar.fromLatin1 endCh))
      then Ok (QString.appendChar string endCh)
      else Ok string
  end.

(** The index 0 is read only after [length() > 0], so it is in range. *)
Definition forceStartChar (string : QString.t) (startCh : byte) : QString.t :=
  match string with
  | c :: _ =>
      if negb (QChar.eqb c (QChar.fromLatin1 startCh))
      then QString.prependChar string startCh
      else string
  | [] => string
  end.

Definition trimValue (line : QByteArray.t) : QByteArray.t :=
  let value : QByteArray.t := [] in
  let index := QByteArray.indexOf line x3a in
  let value :=
    if 0 <? index
    then QByteArray.right line (QByteArray.size line - index - 1)
    else value in
  QByteArray.trimmed value.

Definition dotJson : QString.t := QString.lit ".json".

Definition buildPath (this : t) (queryString : QString.t) : QString.t :=
  let destination := mHost this in
  let dotJsonLength := 5 in
  let destination :=
    if (QString.length destination <=? dotJsonLength)
       || negb (QString.eqb (QString.right destination dotJsonLength) dotJson)
    then QString.append destination dotJson
    else destination in
  let destination :=
    if 0 <? QString.length queryString
    then QString.append destination (forceStartChar queryString x3f)
    else destination in
  destination.

(** *** Constructor *)

Definition Firebase (hostName firebaseFunctionHost dbPath : QString.t)
  : M (result t) :=
  match forceEndChar (QString.trimmed hostName) x2f with
  | IndexOutOfRange n i => ret (IndexOutOfRange n i)
  | Ok mHost0 =>
      ret (Ok {| mFirebaseFunctionHost := firebaseFunctionHost;
                 mFirebaseToken := QString.lit EmptyString;
                 mHost := QString.append mHost0 (QString.trimmed dbPath) |})
  end.

(** *** Requests *)

Definition setValue (this : t) (jsonDoc : QJsonDocument)
           (verb queryString : QString.t) : M unit :=
  let path := buildPath this queryString in
  let request := QNetworkRequest.new (QUrl.fromString path) in
  let request :=
    QNetworkRequest.setHeader request QNetworkRequest.ContentTypeHeader
      (QByteArray.lit "application/x-www-form-urlencoded") in
  let jsonBA := toJsonCompact jsonDoc in
  let buffer := QBuffer.new in
  let buffer := QBuffer.open buffer in
  let buffer := QBuffer.write buffer jsonBA in
  let buffer := QBuffer.seek buffer 0 in
  let verbBA := Utf8.toUtf8 verb in
  sendCustomRequest request verbBA buffer ;;
  let buffer := QBuffer.close buffer in
  ret tt.

(** The declared defaults: the verb PATCH and the empty query string. *)
Definition setValue_default (this : t) (jsonDoc : QJsonDocument) : M unit :=
  setValue this jsonDoc (QString.lit "PATCH") (QString.lit EmptyString).

Definition getValue (this : t) (queryString : QString.t) : M unit :=
  let request :=
    QNetworkRequest.new (QUrl.fromString (buildPath this queryString)) in
  reply <- get request ;;
  connect reply finished slot_getValueLambda.

(** The closure [getValue] connects to [finished]. *)
Definition getValueLambda : M unit :=
  qDebug [Text "No getValue reply implementation"].

Definition open (url : QUrl.t) : M unit :=
  let request := QNetworkRequest.new url in
  let request :=
    QNetworkRequest.setRawHeader request (QByteArray.lit "Accept")
      (QByteArray.lit "text/event-stream") in
  reply <- get request ;;
  connect reply readyRead slot_eventReadyRead ;;
  connect reply finished slot_eventFinished.

Definition listenEvents (this : t) (queryString : QString.t) : M unit :=
  open (QUrl.fromString (buildPath this queryString)).

Definition getPath (this : t) (queryString : QString.t) : QString.t :=
  buildPath this queryString.

Definition callFunction (this : t) (function : QString.t) : M unit :=
  let functionRequest :=
    QNetworkRequest.new
      (QUrl.fromString (QString.append (mFirebaseFunctionHost this) function)) in
  reply <- get functionRequest ;;
  connect reply finished slot_functionFinished.

(** *** Slots

    [sender] is [None] when the sender is not a network reply; a slot
    returns the reply as its reads have left it. *)

Definition functionFinished (reply : QNetworkReply.t) : M QNetworkReply.t :=
  let (data, reply) := QNetworkReply.readAll reply in
  emit (functionResponseReady data) ;;
  deleteLater reply ;;
  ret reply.

Definition eventFinished (sender : option QNetworkReply.t) : M unit :=
  match sender with
  | None => ret tt
  | Some reply =>
      let redirectUrl := QNetworkReply.redirectionTarget reply in
      if negb (QUrl.isEmpty redirectUrl) then
        deleteLater reply ;;
        open redirectUrl
      else
        deleteLater reply
  end.

Definition parseKeepAlive (data : QByteArray.t) : M unit :=
  emit eventKeepAlive.

Definition parsePut (data : QByteArray.t) : M unit :=
  let data := trimValue data in
  let (replyDoc, error) := fromJson data in
  if negb (isObject replyDoc) then
    qWarning [Text "Malformed Firebase put data:"; Bytes data;
              ParseError error; ParseErrorString error]
  else
    emit (eventPut (object replyDoc)).

Definition keepAliveHeader : QByteArray.t :=
  QByteArray.lit "event: keep-alive" ++ [x0a].
Definition putHeader : QByteArray.t :=
  QByteArray.lit "event: put" ++ [x0a].

Definition eventReadyRead (sender : option QNetworkReply.t)
  : M (option QNetworkReply.t) :=
  match sender with
  | None => ret None
  | Some reply =>
      let (event, reply) := QNetworkReply.readLine reply in
      if QByteArray.isEmpty event then ret (Some reply)
      else
        let (data, reply) := QNetworkReply.readAll reply in
        (if QByteArray.eqb event keepAliveHeader then parseKeepAlive data
         else if QByteArray.eqb event putHeader then parsePut data
         else qWarning [Text "Unknown Firebase event:"; Bytes event]) ;;
        ret (Some reply)
  end.

(** *** Reading a run *)

Definition run {A} (m : M A) : A * World :=
  m {| effects := []; created := 0 |}.

Definition emitted (w : World) : list Signal :=
  flat_map (fun e => match e with Emit s => [s] | _ => [] end) (effects w).

Definition requests (w : World) : list Effect :=
  filter (fun e => match e with Request _ _ _ _ => true | _ => false end)
         (effects w).

(** The reply once all its bytes have been read. *)
Definition drained (r : QNetworkReply.t) : QNetworkReply.t :=
  QNetworkReply.make (QNetworkReply.handle r) []
    (QNetworkReply.redirectionTarget r).

(** The world after one more effect. *)
Definition logged (w : World) (e : Effect) : World :=
  mkWorld (effects w ++ [e]) (created w).
End WithJson.
End Firebase.

(** ** A reference JSON codec

    An instance of [QJson] following the JSON grammar (RFC 8259), used to run
    the client on concrete inputs.  A document is an array or an object;
    numbers are kept as their text and object members in document order. *)

Module RefJson.
Inductive value : Type :=
| Null
| Bool (b : bool)
| Number (text : list byte)
| String (s : list byte)
| Array (items : list value)
| Object (members : list (list byte * value)).

Inductive document : Type :=
| DocNull
| DocArray (items : list value)
| DocObject (members : list (list byte * value)).

Inductive parseError : Type := NoError | IllegalValue | GarbageAtEnd.

Definition isWs (c : byte) : bool :=
  Byte.eqb c x20 || Byte.eqb c x09 || Byte.eqb c x0a || Byte.eqb c x0d.
Definition skipWs (s : list byte) : list byte := dropWhile isWs s.

Definition isDigit (c : byte) : bool :=
  let n := Byte.to_N c in ((48 <=? n) && (n <=? 57))%N.

Definition hexVal (c : byte) : option N :=
  let n := Byte.to_N c in
  (if (48 <=? n) && (n <=? 57) then Some (n - 48)
   else if (65 <=? n) && (n <=? 70) then Some (n - 55)
   else if (97 <=? n) && (n <=? 102) then Some (n - 87)
   else None)%N.

Definition hex4 (a b c d : byte) : option N :=
  match hexVal a, hexVal b, hexVal c, hexVal d with
  | Some x, Some y, Some z, Some w => Some (((x * 16 + y) * 16 + z) * 16 + w)%N
  | _, _, _, _ => None
  end.

Definition simpleEscape (c : byte) : option byte :=
  if Byte.eqb c x22 then Some x22
  else if Byte.eqb c x5c then Some x5c
  else if Byte.eqb c x2f then Some x2f
  else if Byte.eqb c x62 then Some x08
  else if Byte.eqb c x66 then Some x0c
  else if Byte.eqb c x6e then Some x0a
  else if Byte.eqb c x72 then Some x0d
  else if Byte.eqb c x74 then Some x09
  else None.

Definition cons_fst {A B} (a : list A) (r : option (list A * B))
  : option (list A * B) :=
  match r with Some (l, b) => Some (a ++ l, b) | None => None end.

(** The body of a string, after its opening quote, up to the closing one. *)
Fixpoint parseString (s : list byte) : option (list byte * list byte) :=
  match s with
  | [] => None
  | c :: tl =>
      if Byte.eqb c x22 then Some ([], tl)
      else if Byte.eqb c x5c then
        match tl with
        | e :: tl1 =>
            if Byte.eqb e x75 then
              match tl1 with
              | a :: b :: c' :: d :: tl2 =>
                  match hex4 a b c' d with
                  | Some u =>
                      if Utf8.isHigh u || Utf8.isLow u then None
                      else cons_fst (Utf8.encode u) (parseString tl2)
                  | None => None
                  end
              | _ => None
              end
            else
              match simpleEscape e with
              | Some b => cons_fst [b] (parseString tl1)
              | None => None
              end
        | [] => None
        end
      else if (Byte.to_N c <? 32)%N then None
      else cons_fst [c] (parseString tl)
  end.

(** Numbers: an optional minus, an integer part without a leading zero
    (or a single zero), an optional fraction and an optional exponent. *)
Fixpoint span (p : byte -> bool) (s : list byte) : list byte * list byte :=
  match s with
  | c :: tl => if p c then let (a, b) := span p tl in (c :: a, b) else ([], s)
  | [] => ([], [])
  end.

Definition parseInt (s : list byte) : option (list byte * list byte) :=
  match span isDigit s with
  | ([], _) => None
  | (d :: ds, r) =>
      if Byte.eqb d x30 && negb (match ds with [] => true | _ => false end)
      then None else Some (d :: ds, r)
  end.

Definition parseFrac (s : list byte) : option (list byte * list byte) :=
  match s with
  | c :: tl =>
      if Byte.eqb c x2e then
        match span isDigit tl with
        | ([], _) => None
        | (ds, r) => Some (c :: ds, r)
        end
      else Some ([], s)
  | [] => Some ([], s)
  end.

Definition parseExp (s : list byte) : option (list byte * list byte) :=
  match s with
  | c :: tl =>
      if Byte.eqb c x65 || Byte.eqb c x45 then
        let (sign, tl') :=
          match tl with
          | g :: tl1 =>
              if Byte.eqb g x2b || Byte.eqb g x2d then ([g], tl1) else ([], tl)
          | [] => ([], tl)
          end in
        match span isDigit tl' with
        | ([], _) => None
        | (ds, r) => Some (c :: sign ++ ds, r)
        end
      else Some ([], s)
  | [] => Some ([], s)
  end.

Definition parseNumber (s : list byte) : option (list byte * list byte) :=
  let (sign, s1) :=
    match s with
    | c :: tl => if Byte.eqb c x2d then ([c], tl) else ([], s)
    | [] => ([], s)
    end in
  match parseInt s1 with
  | None => None
  | Some (i, s2) =>
      match parseFrac s2 with
      | None => None
      | Some (f, s3) =>
          match parseExp s3 with
          | None => None
          | Some (e, s4) => Some (sign ++ i ++ f ++ e, s4)
          end
      end
  end.

Fixpoint stripPrefix (p s : list byte) : option (list byte) :=
  match p, s with
  | [], _ => Some s
  | a :: p', b :: s' => if Byte.eqb a b then stripPrefix p' s' else None
  | _ :: _, [] => None
  end.

Section Loops.
Variable parseValue : list byte -> option (value * list byte).

(** Array elements after the first check for [']']. *)
Fixpoint elements (k : nat) (s : list byte)
  : option (list value * list byte) :=
  match k with
  | O => None
  | S k' =>
      match parseValue s with
      | None => None
      | Some (v, r) =>
          match skipWs r with
          | c :: r' =>
              if Byte.eqb c x2c then
                match elements k' r' with
                | Some (vs, r'') => Some (v :: vs, r'')
                | None => None
                end
              else if Byte.eqb c x5d then Some ([v], r')
              else None
          | [] => None
          end
      end
  end.

Fixpoint members (k : nat) (s : list byte)
  : option (list (list byte * value) * list byte) :=
  match k with
  | O => None
  | S k' =>
      match skipWs s with
      | q :: r =>
          if Byte.eqb q x22 then
            match parseString r with
            | None => None
            | Some (key, r1) =>
                match skipWs r1 with
                | c :: r2 =>
                    if Byte.eqb c x3a then
                      match parseValue r2 with
                      | None => None
                      | Some (v, r3) =>
                          match skipWs r3 with
                          | d :: r4 =>
                              if Byte.eqb d x2c then
                                match members k' r4 with
                                | Some (ms, r5) => Some ((key, v) :: ms, r5)
                                | None => None
                                end
                              else if Byte.eqb d x7d then Some ([(key, v)], r4)
                              else None
                          | [] => None
                          end
                      end
                    else None
                | [] => None
                end
            end
          else None
      | [] => None
      end
  end.
End Loops.

Definition map_fst {A B C} (f : A -> C) (r : option (A * B)) : option (C * B) :=
  match r with Some (a, b) => Some (f a, b) | None => None end.

Fixpoint parseValue (fuel : nat) (s : list byte) : option (value * list byte) :=
  match fuel with
  | O => None
  | S n =>
      match skipWs s with
      | [] => None
      | c :: r =>
          if Byte.eqb c x7b then
            match skipWs r with
            | d :: r' =>
                if Byte.eqb d x7d then Some (Object [], r')
                else map_fst Object (members (parseValue n) (length r) r)
            | [] => None
            end
          else if Byte.eqb c x5b then
            match skipWs r with
            | d :: r' =>
                if Byte.eqb d x5d then Some (Array [], r')
                else map_fst Array (elements (parseValue n) (length r) r)
            | [] => None
            end
          else if Byte.eqb c x22 then map_fst String (parseString r)
          else
            match stripPrefix (list_byte_of_string "true") (c :: r) with
            | Some r' => Some (Bool true, r')
            | None =>
            match stripPrefix (list_byte_of_string "false") (c :: r) with
            | Some r' => Some (Bool false, r')
            | None =>
            match stripPrefix (list_byte_of_string "null") (c :: r) with
            | Some r' => Some (Null, r')
            | None => map_fst Number (parseNumber (c :: r))
            end end end
      end
  end.

Definition fromJson (data : QByteArray.t) : document * parseError :=
  match parseValue (S (length data)) data with
  | Some (Object ms, r) =>
      match skipWs r with
      | [] => (DocObject ms, NoError)
      | _ => (DocNull, GarbageAtEnd)
      end
  | Some (Array vs, r) =>
      match skipWs r with
      | [] => (DocArray vs, NoError)
      | _ => (DocNull, GarbageAtEnd)
      end
  | _ => (DocNull, IllegalValue)
  end.
End RefJson.

Module RefJsonWriter.
Import RefJson.

Definition hexDigit (n : N) : byte :=
  Utf8.byte_of (if n <? 10 then 48 + n else 87 + n)%N.

Definition escape (c : byte) : list byte :=
  if Byte.eqb c x22 then [x5c; x22]
  else if Byte.eqb c x5c then [x5c; x5c]
  else if Byte.eqb c x08 then [x5c; x62]
  else if Byte.eqb c x0c then [x5c; x66]
  else if Byte.eqb c x0a then [x5c; x6e]
  else if Byte.eqb c x0d then [x5c; x72]
  else if Byte.eqb c x09 then [x5c; x74]
  else if (Byte.to_N c <? 32)%N then
    [x5c; x75; x30; x30; hexDigit (Byte.to_N c / 16); hexDigit (Byte.to_N c mod 16)]
  else [c].

Definition quoted (s : list byte) : list byte :=
  [x22] ++ flat_map escape s ++ [x22].

Fixpoint joinWith (sep : byte) (l : list (list byte)) : list byte :=
  match l with
  | [] => []
  | [x] => x
  | x :: tl => x ++ [sep] ++ joinWith sep tl
  end.

Fixpoint writeValue (v : value) : list byte :=
  match v with
  | Null => list_byte_of_string "null"
  | Bool true => list_byte_of_string "true"
  | Bool false => list_byte_of_string "false"
  | Number t => t
  | String s => quoted s
  | Array vs => [x5b] ++ joinWith x2c (map writeValue vs) ++ [x5d]
  | Object ms =>
      [x7b]
      ++ joinWith x2c
           (map (fun m => quoted (fst m) ++ [x3a] ++ writeValue (snd m)) ms)
      ++ [x7d]
  end.

Definition toJsonCompact (d : document) : QByteArray.t :=
  match d with
  | DocNull => []
  | DocArray vs => writeValue (Array vs)
  | DocObject ms => writeValue (Object ms)
  end.
End RefJsonWriter.

#[export] Instance refJson : QJson := {|
  QJsonObject := list (list byte * RefJson.value);
  QJsonDocument := RefJson.document;
  QJsonParseError := RefJson.parseError;
  fromJson := RefJson.fromJson;
  toJsonCompact := RefJsonWriter.toJsonCompact;
  isObject := fun d => match d with RefJson.DocObject _ => true | _ => false end;
  object := fun d => match d with RefJson.DocObject ms => ms | _ => [] end
|}.

(** ** Vocabulary of the specification

    The notions the specification uses to describe the client, defined from
    its wording and independently of the methods above. *)

Module Spec.
(** [s] ends in [suffix]. *)
Definition endsWith {A : Type} (s suffix : list A) : Prop :=
  exists p, s = p ++ suffix.

(** Everything after the first occurrence of [c]. *)
Fixpoint afterFirst (c : byte) (l : list byte) : list byte :=
  match l with
  | [] => []
  | x :: tl => if Byte.eqb x c then tl else afterFirst c tl
  end.

(** The payload of a data line: what follows its first colon, trimmed. *)
Definition payload (data : QByteArray.t) : QByteArray.t :=
  QByteArray.trimmed (afterFirst x3a data).

(** A query normalized to start with a question mark; nothing when empty. *)
Definition normalizedQuery (q : QString.t) : QString.t :=
  match q with
  | [] => []
  | c :: _ => if QChar.eqb c (QChar.fromLatin1 x3f) then q
              else QChar.fromLatin1 x3f :: q
  end.

Definition slash : QChar.t := QChar.fromLatin1 x2f.

(** A host with one separator appended when it does not end with one. *)
Definition normalizedHost (host : QString.t) : QString.t :=
  match rev host with
  | c :: _ => if QChar.eqb c slash then host else host ++ [slash]
  | [] => host ++ [slash]
  end.

(** The endpoint of a client made from [host] and [dbPath]. *)
Definition endpoint (host dbPath : QString.t) : QString.t :=
  normalizedHost host ++ dbPath.
End Spec.

(** JSON text written with apostrophes in place of the double quotes. *)
Definition jsonText (s : string) : QByteArray.t :=
  map (fun b => if Byte.eqb b x27 then x22 else b) (list_byte_of_string s).

(** ** A client in use

    What can happen to a client once it is built: its public methods are
    called, and the event loop runs its slots on replies in any state. *)

Module Session.
Section WithJson.
Context {json : QJson}.

Inductive Call : Type :=
| SetValue (jsonDoc : QJsonDocument) (verb queryString : QString.t)
| GetValue (queryString : QString.t)
| ListenEvents (queryString : QString.t)
| CallFunction (function : QString.t)
| FunctionFinished (reply : QNetworkReply.t)
| GetValueFinished
| EventFinished (sender : option QNetworkReply.t)
| EventReadyRead (sender : option QNetworkReply.t).

Definition call (this : Firebase.t) (c : Call) : Firebase.M unit :=
  match c with
  | SetValue jsonDoc verb queryString =>
      Firebase.setValue this jsonDoc verb queryString
  | GetValue queryString => Firebase.getValue this queryString
  | ListenEvents queryString => Firebase.listenEvents this queryString
  | CallFunction function => Firebase.callFunction this function
  | FunctionFinished reply =>
      Firebase.bind (Firebase.functionFinished reply) (fun _ => Firebase.ret tt)
  | GetValueFinished => Firebase.getValueLambda
  | EventFinished sender => Firebase.eventFinished sender
  | EventReadyRead sender =>
      Firebase.bind (Firebase.eventReadyRead sender) (fun _ => Firebase.ret tt)
  end.

Fixpoint calls (this : Firebase.t) (cs : list Call) : Firebase.M unit :=
  match cs with
  | [] => Firebase.ret tt
  | c :: cs' => Firebase.bind (call this c) (fun _ => calls this cs')
  end.

(** The signals and the requests among a list of effects. *)
Definition signalsOf (l : list Firebase.Effect) : list Firebase.Signal :=
  flat_map (fun e => match e with Firebase.Emit s => [s] | _ => [] end) l.

Definition requestsOf (l : list Firebase.Effect) : list Firebase.Effect :=
  filter (fun e => match e with Firebase.Request _ _ _ _ => true | _ => false end) l.

Definition isSetValue (c : Call) : bool :=
  match c with SetValue _ _ _ => true | _ => false end.

(** An effect that is not a request, or is a GET without a body. *)
Definition plainGet (e : Firebase.Effect) : Prop :=
  match e with
  | Firebase.Request verb _ body _ => verb = QByteArray.lit "GET" /\ body = None
  | _ => True
  end.
End WithJson.
End Session.

(** * Properties *)

(** ** Lists *)

Section ListFacts.
Context {A : Type} (eqb : A -> A -> bool).
Hypothesis eqb_spec : forall x y, eqb x y = true <-> x = y.

Lemma list_eqb_eq (l1 l2 : list A) : list_eqb eqb l1 l2 = true <-> l1 = l2.
Proof.
  revert l2; induction l1 as [|x t1 IH]; intros [|y t2]; simpl;
    try (split; [discriminate | discriminate]); try tauto.
  rewrite andb_true_iff, eqb_spec, IH.
  split; [intros [-> ->]; reflexivity | intros E; inversion E; auto].
Qed.

Lemma list_eqb_refl (l : list A) : list_eqb eqb l l = true.
Proof. apply list_eqb_eq; reflexivity. Qed.

Lemma list_eqb_neq (l1 l2 : list A) : l1 <> l2 -> list_eqb eqb l1 l2 = false.
Proof.
  intros N. destruct (list_eqb eqb l1 l2) eqn:E; [|reflexivity].
  apply list_eqb_eq in E; contradiction.
Qed.

(** [indexFrom] returns [-1] exactly when the element does not occur, and
    otherwise a position inside the list. *)
Lemma indexFrom_range (c : A) (l : list A) (from : Z) :
  0 <= from ->
  (indexFrom eqb c l from = -1 /\ ~ In c l)
  \/ (from <= indexFrom eqb c l from < from + Z.of_nat (length l) /\ In c l).
Proof.
  revert from; induction l as [|x tl IH]; intros from Hf; simpl.
  - left; auto.
  - destruct (eqb x c) eqn:E.
    + apply eqb_spec in E. right; split; [lia | auto].
    + assert (x <> c) by (intros ->; rewrite (proj2 (eqb_spec c c) eq_refl) in E;
                          discriminate).
      destruct (IH (from + 1)) as [[H1 H2] | [H1 H2]]; [lia | |].
      * left; split; [assumption | intros [?|?]; contradiction].
      * right; split; [lia | auto].
Qed.
End ListFacts.

Lemma lastn_short {A} (n : Z) (l : list A) :
  Z.of_nat (length l) <= n -> lastn n l = l.
Proof. intros H; unfold lastn. destruct (Z.leb_spec (Z.of_nat (length l)) n); [reflexivity | lia]. Qed.

Lemma lastn_skipn {A} (n : Z) (l : list A) :
  0 <= n < Z.of_nat (length l) ->
  lastn n l = skipn (length l - Z.to_nat n) l.
Proof. intros H; unfold lastn. destruct (Z.leb_spec (Z.of_nat (length l)) n); [lia | reflexivity]. Qed.

Lemma lastn_app_exact {A} (p s : list A) :
  lastn (Z.of_nat (length s)) (p ++ s) = s.
Proof.
  destruct p as [|a p].
  - apply lastn_short; simpl; lia.
  - rewrite lastn_skipn by (rewrite length_app; simpl; lia).
    rewrite Nat2Z.id, length_app.
    replace (length (a :: p) + length s - length s)%nat with (length (a :: p)) by lia.
    rewrite skipn_app, skipn_all, Nat.sub_diag. reflexivity.
Qed.

Lemma byte_eqb_spec (x y : byte) : Byte.eqb x y = true <-> x = y.
Proof. split; [apply Byte.byte_dec_bl | apply Byte.byte_dec_lb]. Qed.

Lemma qchar_eqb_spec (x y : QChar.t) : QChar.eqb x y = true <-> x = y.
Proof. apply N.eqb_eq. Qed.

Lemma QByteArray_eqb_eq (a b : QByteArray.t) : QByteArray.eqb a b = true <-> a = b.
Proof. apply list_eqb_eq, byte_eqb_spec. Qed.

Lemma QString_eqb_eq (a b : QString.t) : QString.eqb a b = true <-> a = b.
Proof. apply list_eqb_eq, qchar_eqb_spec. Qed.

(** ** [trimValue] *)

Lemma afterFirst_skipn (c : byte) (l : list byte) (from : Z) :
  0 <= from -> In c l ->
  skipn (S (Z.to_nat (indexFrom Byte.eqb c l from - from))) l = Spec.afterFirst c l.
Proof.
  revert from; induction l as [|x tl IH]; intros from Hf Hin; [destruct Hin|].
  simpl indexFrom; simpl Spec.afterFirst.
  destruct (Byte.eqb x c) eqn:E.
  - rewrite Z.sub_diag; reflexivity.
  - assert (In c tl) as Hin'.
    { destruct Hin as [->|?]; [|assumption].
      rewrite (@Byte.byte_dec_lb c c eq_refl) in E; discriminate. }
    destruct (indexFrom_range Byte.eqb byte_eqb_spec c tl (from + 1)) as [[_ N]|[R _]];
      [lia | contradiction |].
    rewrite <- (IH (from + 1)) by (lia || assumption).
    replace (Z.to_nat (indexFrom Byte.eqb c tl (from + 1) - from))
      with (S (Z.to_nat (indexFrom Byte.eqb c tl (from + 1) - (from + 1)))) by lia.
    reflexivity.
Qed.

Lemma indexOf_absent (line : QByteArray.t) (c : byte) :
  ~ In c line -> QByteArray.indexOf line c = -1.
Proof.
  intros N. unfold QByteArray.indexOf.
  destruct (indexFrom_range Byte.eqb byte_eqb_spec c line 0) as [[E _]|[_ I]];
    [lia | assumption | contradiction].
Qed.

Lemma indexOf_head (tl : QByteArray.t) (c : byte) :
  QByteArray.indexOf (c :: tl) c = 0.
Proof.
  unfold QByteArray.indexOf; simpl.
  rewrite (@Byte.byte_dec_lb c c eq_refl); reflexivity.
Qed.

Section TrimValue.
Context {json : QJson}.

(** With the first colon at a positive index, [trimValue] is the payload of
    the specification. *)
Lemma trimValue_payload (line : QByteArray.t) :
  0 < QByteArray.indexOf line x3a ->
  Firebase.trimValue line = Spec.payload line.
Proof.
  intros Hpos. unfold Firebase.trimValue, Spec.payload.
  rewrite (proj2 (Z.ltb_lt _ _) Hpos).
  f_equal. unfold QByteArray.right, QByteArray.size, QByteArray.indexOf in *.
  destruct (indexFrom_range Byte.eqb byte_eqb_spec x3a line 0) as [[E _]|[R I]];
    [lia | lia |].
  rewrite lastn_skipn by lia.
  rewrite <- (afterFirst_skipn x3a line 0) by (lia || assumption).
  f_equal. lia.
Qed.

(** Without a colon at a positive index, [trimValue] is empty. *)
Lemma trimValue_empty (line : QByteArray.t) :
  QByteArray.indexOf line x3a <= 0 -> Firebase.trimValue line = [].
Proof.
  intros H. unfold Firebase.trimValue.
  destruct (Z.ltb_spec 0 (QByteArray.indexOf line x3a)); [lia | reflexivity].
Qed.
End TrimValue.

(** ** The readiness slot, case by case *)

Lemma splitLine_line (l data : QByteArray.t) :
  ~ In x0a l ->
  QNetworkReply.splitLine (l ++ x0a :: data) = (l ++ [x0a], data).
Proof.
  induction l as [|c l IH]; intros N; simpl.
  - reflexivity.
  - destruct (Byte.eqb c x0a) eqn:E.
    + apply Byte.byte_dec_bl in E; subst; exfalso; apply N; left; reflexivity.
    + rewrite IH by (intros I; apply N; right; assumption). reflexivity.
Qed.

Lemma splitLine_nil (b : QByteArray.t) :
  fst (QNetworkReply.splitLine b) = [] -> b = [].
Proof.
  destruct b as [|c tl]; [reflexivity|]; simpl.
  destruct (Byte.eqb c x0a); [discriminate|].
  destruct (QNetworkReply.splitLine tl); discriminate.
Qed.

Lemma splitLine_app (b : QByteArray.t) :
  fst (QNetworkReply.splitLine b) ++ snd (QNetworkReply.splitLine b) = b.
Proof.
  induction b as [|c tl IH]; simpl; [reflexivity|].
  destruct (Byte.eqb c x0a); [reflexivity|].
  destruct (QNetworkReply.splitLine tl); simpl in *; congruence.
Qed.

Section Slots.
Context {json : QJson}.

Lemma eventReadyRead_keepAlive (h : nat) (data : QByteArray.t) (u : QUrl.t)
      (w : Firebase.World) :
  Firebase.eventReadyRead
    (Some (QNetworkReply.make h (Firebase.keepAliveHeader ++ data) u)) w
  = (Some (QNetworkReply.make h [] u), Firebase.logged w (Firebase.Emit Firebase.eventKeepAlive)).
Proof. reflexivity. Qed.

Lemma eventReadyRead_put (h : nat) (data : QByteArray.t) (u : QUrl.t)
      (w : Firebase.World) :
  Firebase.eventReadyRead
    (Some (QNetworkReply.make h (Firebase.putHeader ++ data) u)) w
  = (Some (QNetworkReply.make h [] u), snd (Firebase.parsePut data w)).
Proof.
  unfold Firebase.eventReadyRead, Firebase.bind, Firebase.ret; cbn.
  destruct (Firebase.parsePut data w); reflexivity.
Qed.

Lemma parsePut_object (data : QByteArray.t) (w : Firebase.World) :
  isObject (fst (fromJson (Firebase.trimValue data))) = true ->
  Firebase.parsePut data w
  = (tt, Firebase.logged w (Firebase.Emit
                     (Firebase.eventPut
                        (object (fst (fromJson (Firebase.trimValue data))))))).
Proof.
  intros H. unfold Firebase.parsePut.
  destruct (fromJson (Firebase.trimValue data)) as [doc err]; simpl in *.
  rewrite H; reflexivity.
Qed.

Lemma parsePut_malformed (data : QByteArray.t) (w : Firebase.World) :
  isObject (fst (fromJson (Firebase.trimValue data))) = false ->
  Firebase.parsePut data w
  = (tt, Firebase.logged w (Firebase.Warning
                     [Firebase.Text "Malformed Firebase put data:";
                      Firebase.Bytes (Firebase.trimValue data);
                      Firebase.ParseError (snd (fromJson (Firebase.trimValue data)));
                      Firebase.ParseErrorString
                        (snd (fromJson (Firebase.trimValue data)))])).
Proof.
  intros H. unfold Firebase.parsePut.
  destruct (fromJson (Firebase.trimValue data)) as [doc err]; simpl in *.
  rewrite H; reflexivity.
Qed.
End Slots.

Section Events.
Context {json : QJson}.

Lemma emitted_logged_emit (w : Firebase.World) (s : Firebase.Signal) :
  Firebase.emitted (Firebase.logged w (Firebase.Emit s)) = Firebase.emitted w ++ [s].
Proof. unfold Firebase.emitted; simpl. rewrite flat_map_app; reflexivity. Qed.

Lemma emitted_logged_warning (w : Firebase.World) (line : list Firebase.LogItem) :
  Firebase.emitted (Firebase.logged w (Firebase.Warning line)) = Firebase.emitted w.
Proof. unfold Firebase.emitted; simpl. rewrite flat_map_app; simpl. apply app_nil_r. Qed.

Lemma readLine_drained (r : QNetworkReply.t) :
  snd (QNetworkReply.readAll (snd (QNetworkReply.readLine r))) = Firebase.drained r.
Proof.
  unfold QNetworkReply.readLine.
  destruct (QNetworkReply.splitLine (QNetworkReply.available r)); reflexivity.
Qed.

(** The slot on a reply whose first line is not empty: both reads happen,
    then the header selects the parser. *)
Lemma eventReadyRead_dispatch (r : QNetworkReply.t) (w : Firebase.World) :
  let event := fst (QNetworkReply.readLine r) in
  let data := QNetworkReply.available (snd (QNetworkReply.readLine r)) in
  event <> [] ->
  Firebase.eventReadyRead (Some r) w
  = (Some (Firebase.drained r),
     snd ((if QByteArray.eqb event Firebase.keepAliveHeader
           then Firebase.parseKeepAlive data
           else if QByteArray.eqb event Firebase.putHeader
                then Firebase.parsePut data
                else Firebase.qWarning
                       [Firebase.Text "Unknown Firebase event:";
                        Firebase.Bytes event]) w)).
Proof.
  intros event data Hne. subst event data.
  unfold Firebase.eventReadyRead, QNetworkReply.readLine in *.
  destruct (QNetworkReply.splitLine (QNetworkReply.available r)) as [l rest].
  simpl in *. destruct l as [|c l]; [contradiction|].
  simpl. unfold Firebase.bind, Firebase.ret.
  match goal with |- (let (_, _) := ?m w in _) = _ => destruct (m w) end.
  reflexivity.
Qed.

(** C3.  A chunk that starts with the line [event: keep-alive] followed by a
    newline makes the readiness slot emit [eventKeepAlive] and nothing else,
    whatever follows the line; the bytes after the line are read and
    discarded.  In particular the chunk made of that line and one more
    newline yields exactly one KeepAlive and no Put. *)
Theorem keep_alive_event (h : nat) (data : QByteArray.t) (u : QUrl.t)
        (w : Firebase.World) :
  let reply := QNetworkReply.make h (Firebase.keepAliveHeader ++ data) u in
  Firebase.eventReadyRead (Some reply) w
  = (Some (Firebase.drained reply),
     Firebase.logged w (Firebase.Emit Firebase.eventKeepAlive))
  /\ Firebase.emitted (snd (Firebase.eventReadyRead (Some reply) w))
     = Firebase.emitted w ++ [Firebase.eventKeepAlive]
  /\ Firebase.run
       (Firebase.eventReadyRead
          (Some (QNetworkReply.make h
                   (QByteArray.lit "event: keep-alive" ++ [x0a; x0a]) u)))
     = (Some (QNetworkReply.make h [] u),
        Firebase.mkWorld [Firebase.Emit Firebase.eventKeepAlive] 0).
Proof.
  intros reply. split; [|split].
  - apply eventReadyRead_keepAlive.
  - unfold reply. rewrite eventReadyRead_keepAlive. apply emitted_logged_emit.
  - reflexivity.
Qed.

(** C10.  When the line read from the reply is empty, the readiness slot
    returns at once: the world is unchanged (no signal, no diagnostic, no
    request) and the reply keeps every byte it had. *)
Theorem empty_line_returns (r : QNetworkReply.t) (w : Firebase.World) :
  fst (QNetworkReply.readLine r) = [] ->
  Firebase.eventReadyRead (Some r) w = (Some r, w).
Proof.
  intros H. unfold Firebase.eventReadyRead.
  unfold QNetworkReply.readLine in *.
  pose proof (splitLine_nil (QNetworkReply.available r)) as Hnil.
  pose proof (splitLine_app (QNetworkReply.available r)) as Happ.
  destruct (QNetworkReply.splitLine (QNetworkReply.available r)) as [l rest].
  simpl in *. subst l. simpl in Happ. subst rest.
  destruct r; reflexivity.
Qed.

(** C4.  An event whose header line is non-empty and is neither the
    keep-alive nor the put header, or whose header is the put header while
    its payload does not parse as a JSON object, is dropped: the slot returns
    normally, the only effect added to the world is one warning, and the
    signals emitted are those emitted before. *)
Theorem malformed_event_dropped (r : QNetworkReply.t) (w : Firebase.World) :
  let event := fst (QNetworkReply.readLine r) in
  let data := QNetworkReply.available (snd (QNetworkReply.readLine r)) in
  event <> [] ->
  (event <> Firebase.keepAliveHeader /\ event <> Firebase.putHeader)
  \/ (event = Firebase.putHeader
      /\ isObject (fst (fromJson (Firebase.trimValue data))) = false) ->
  exists line,
    Firebase.eventReadyRead (Some r) w
    = (Some (Firebase.drained r), Firebase.logged w (Firebase.Warning line))
    /\ Firebase.emitted (snd (Firebase.eventReadyRead (Some r) w))
       = Firebase.emitted w.
Proof.
  intros event data Hne Hcase.
  rewrite (eventReadyRead_dispatch r w Hne). fold event data.
  destruct Hcase as [[Hk Hp] | [Hp Hobj]].
  - exists [Firebase.Text "Unknown Firebase event:"; Firebase.Bytes event].
    unfold QByteArray.eqb.
    rewrite (list_eqb_neq Byte.eqb byte_eqb_spec _ _ Hk).
    rewrite (list_eqb_neq Byte.eqb byte_eqb_spec _ _ Hp).
    split; [reflexivity | apply emitted_logged_warning].
  - rewrite Hp.
    replace (QByteArray.eqb Firebase.putHeader Firebase.keepAliveHeader) with false
      by reflexivity.
    replace (QByteArray.eqb Firebase.putHeader Firebase.putHeader) with true
      by reflexivity.
    rewrite (parsePut_malformed _ w Hobj).
    eexists; split; [reflexivity | apply emitted_logged_warning].
Qed.
End Events.

Lemma empty_line_returns_witness :
  fst (QNetworkReply.readLine (QNetworkReply.make 4 [] [])) = []
  /\ Firebase.eventReadyRead (json := refJson)
       (Some (QNetworkReply.make 4 [] [])) (Firebase.mkWorld [] 0)
     = (Some (QNetworkReply.make 4 [] []), Firebase.mkWorld [] 0).
Proof.
  split; [reflexivity|].
  apply (empty_line_returns (json := refJson)). reflexivity.
Defined.

Lemma malformed_event_dropped_witness :
  (exists line,
      Firebase.run
        (Firebase.eventReadyRead (json := refJson)
           (Some (QNetworkReply.make 1
                    (QByteArray.lit "event: mystery" ++ [x0a]
                     ++ QByteArray.lit "data: 1") [])))
      = (Some (QNetworkReply.make 1 [] []),
         Firebase.mkWorld [Firebase.Warning line] 0)
      /\ Firebase.emitted
           (snd (Firebase.run
                   (Firebase.eventReadyRead (json := refJson)
                      (Some (QNetworkReply.make 1
                               (QByteArray.lit "event: mystery" ++ [x0a]
                                ++ QByteArray.lit "data: 1") []))))) = [])
  /\ (exists line,
         Firebase.run
           (Firebase.eventReadyRead (json := refJson)
              (Some (QNetworkReply.make 2
                       (Firebase.putHeader ++ QByteArray.lit "data: not-json") [])))
         = (Some (QNetworkReply.make 2 [] []),
            Firebase.mkWorld [Firebase.Warning line] 0)
         /\ Firebase.emitted
              (snd (Firebase.run
                      (Firebase.eventReadyRead (json := refJson)
                         (Some (QNetworkReply.make 2
                                  (Firebase.putHeader
                                   ++ QByteArray.lit "data: not-json") []))))) = []).
Proof.
  split.
  - apply (malformed_event_dropped (json := refJson)
             (QNetworkReply.make 1
                (QByteArray.lit "event: mystery" ++ [x0a] ++ QByteArray.lit "data: 1") [])
             (Firebase.mkWorld [] 0)).
    + discriminate.
    + left; split; discriminate.
  - apply (malformed_event_dropped (json := refJson)
             (QNetworkReply.make 2
                (Firebase.putHeader ++ QByteArray.lit "data: not-json") [])
             (Firebase.mkWorld [] 0)).
    + discriminate.
    + right; split; reflexivity.
Defined.

Section PutEvents.
Context {json : QJson}.

(** C1, as the code has it.  For an event with the put header whose data
    has its first colon at a strictly positive index, the payload is what
    follows that colon, trimmed; when it parses as a JSON object the slot
    emits exactly one [eventPut] carrying that object, and nothing else. *)
Theorem put_event_emitted (h : nat) (data : QByteArray.t) (u : QUrl.t)
        (w : Firebase.World) :
  0 < QByteArray.indexOf data x3a ->
  isObject (fst (fromJson (Spec.payload data))) = true ->
  Firebase.trimValue data = Spec.payload data
  /\ Firebase.eventReadyRead
       (Some (QNetworkReply.make h (Firebase.putHeader ++ data) u)) w
     = (Some (QNetworkReply.make h [] u),
        Firebase.logged w
          (Firebase.Emit
             (Firebase.eventPut (object (fst (fromJson (Spec.payload data)))))))
  /\ Firebase.emitted
       (snd (Firebase.eventReadyRead
               (Some (QNetworkReply.make h (Firebase.putHeader ++ data) u)) w))
     = Firebase.emitted w
       ++ [Firebase.eventPut (object (fst (fromJson (Spec.payload data))))].
Proof.
  intros Hpos Hobj.
  pose proof (trimValue_payload data Hpos) as Htrim.
  assert (Firebase.eventReadyRead
            (Some (QNetworkReply.make h (Firebase.putHeader ++ data) u)) w
          = (Some (QNetworkReply.make h [] u),
             Firebase.logged w
               (Firebase.Emit
                  (Firebase.eventPut (object (fst (fromJson (Spec.payload data)))))))) as E.
  { rewrite eventReadyRead_put, parsePut_object by (rewrite Htrim; exact Hobj).
    rewrite Htrim; reflexivity. }
  split; [exact Htrim | split; [exact E|]].
  rewrite E. apply emitted_logged_emit.
Qed.

(** C9.  For an event with the put header whose data has no colon, or has
    its first colon as its first byte, the extracted payload is empty; as the
    empty byte string does not parse as a JSON object, the slot emits no
    signal for it. *)
Theorem put_without_payload_dropped (h : nat) (data : QByteArray.t) (u : QUrl.t)
        (w : Firebase.World) :
  (~ In x3a data \/ exists tl, data = x3a :: tl) ->
  isObject (fst (fromJson [])) = false ->
  Firebase.trimValue data = []
  /\ Firebase.emitted
       (snd (Firebase.eventReadyRead
               (Some (QNetworkReply.make h (Firebase.putHeader ++ data) u)) w))
     = Firebase.emitted w.
Proof.
  intros Hcolon Hempty.
  assert (Firebase.trimValue data = []) as Htrim.
  { apply trimValue_empty. destruct Hcolon as [N | [tl ->]].
    - rewrite (indexOf_absent _ _ N); lia.
    - rewrite indexOf_head; lia. }
  split; [exact Htrim|].
  rewrite eventReadyRead_put, parsePut_malformed by (rewrite Htrim; exact Hempty).
  apply emitted_logged_warning.
Qed.
End PutEvents.

Lemma put_event_emitted_witness :
  let data := jsonText "data: {'path':'/','data':{'a':1}}" in
  0 < QByteArray.indexOf data x3a
  /\ Spec.payload data = jsonText "{'path':'/','data':{'a':1}}"
  /\ Firebase.emitted
       (snd (Firebase.run
               (Firebase.eventReadyRead (json := refJson)
                  (Some (QNetworkReply.make 0 (Firebase.putHeader ++ data) [])))))
     = [Firebase.eventPut
          [(QByteArray.lit "path", RefJson.String (QByteArray.lit "/"));
           (QByteArray.lit "data",
            RefJson.Object [(QByteArray.lit "a", RefJson.Number (QByteArray.lit "1"))])]].
Proof.
  intros data. split; [reflexivity | split; [reflexivity|]].
  apply (put_event_emitted (json := refJson) 0 data [] (Firebase.mkWorld [] 0));
    reflexivity.
Defined.

(** C1 as stated fails when the first colon is the first byte of the data:
    what follows the colon is a JSON object, yet no [eventPut] is emitted. *)
Lemma put_colon_first_not_emitted :
  let data := jsonText ":{}" in
  let out :=
    Firebase.run
      (Firebase.eventReadyRead (json := refJson)
         (Some (QNetworkReply.make 0 (Firebase.putHeader ++ data) []))) in
  Spec.payload data = jsonText "{}"
  /\ isObject (fst (fromJson (Spec.payload data))) = true
  /\ Firebase.emitted (snd out) = []
  /\ Firebase.emitted (snd out)
     <> [Firebase.eventPut (object (fst (fromJson (Spec.payload data))))].
Proof.
  intros data out. repeat split; try reflexivity. discriminate.
Qed.

Lemma put_without_payload_dropped_witness :
  ((~ In x3a (QByteArray.lit "no colon here")
    \/ exists tl, QByteArray.lit "no colon here" = x3a :: tl)
   /\ isObject (fst (fromJson (QJson := refJson) [])) = false
   /\ Firebase.trimValue (QByteArray.lit "no colon here") = []
   /\ Firebase.emitted
        (snd (Firebase.eventReadyRead (json := refJson)
                (Some (QNetworkReply.make 0
                         (Firebase.putHeader ++ QByteArray.lit "no colon here") []))
                (Firebase.mkWorld [] 0))) = [])
  /\ (Firebase.trimValue (jsonText ":{'a':1}") = []
      /\ Firebase.emitted
           (snd (Firebase.eventReadyRead (json := refJson)
                   (Some (QNetworkReply.make 0
                            (Firebase.putHeader ++ jsonText ":{'a':1}") []))
                   (Firebase.mkWorld [] 0))) = []).
Proof.
  assert (~ In x3a (QByteArray.lit "no colon here")
          \/ exists tl, QByteArray.lit "no colon here" = x3a :: tl) as H.
  { left. simpl. intros I.
    repeat (destruct I as [I | I]; [discriminate I|]). exact I. }
  split.
  - split; [exact H | split; [reflexivity|]].
    apply (put_without_payload_dropped (json := refJson) 0 _ []
             (Firebase.mkWorld [] 0) H).
    reflexivity.
  - apply (put_without_payload_dropped (json := refJson) 0 (jsonText ":{'a':1}") []
             (Firebase.mkWorld [] 0)).
    + right. eexists; reflexivity.
    + reflexivity.
Defined.

(** ** Construction *)

Lemma at_last (p : QString.t) (c : QChar.t) :
  QString.at' (p ++ [c]) (QString.length (p ++ [c]) - 1) = Some c.
Proof.
  unfold QString.at', at_, QString.length. rewrite length_app; simpl.
  destruct (Z.leb_spec 0 (Z.of_nat (length p + 1) - 1)); [|lia].
  destruct (Z.ltb_spec (Z.of_nat (length p + 1) - 1) (Z.of_nat (length p + 1))); [|lia].
  simpl. replace (Z.to_nat (Z.of_nat (length p + 1) - 1)) with (length p + 0)%nat by lia.
  rewrite nth_error_app2 by lia.
  replace (length p + 0 - length p)%nat with 0%nat by lia. reflexivity.
Qed.

Lemma normalizedHost_snoc (p : QString.t) (c : QChar.t) :
  Spec.normalizedHost (p ++ [c])
  = if QChar.eqb c Spec.slash then p ++ [c] else (p ++ [c]) ++ [Spec.slash].
Proof. unfold Spec.normalizedHost. rewrite rev_unit. reflexivity. Qed.

Section Construction.
Context {json : QJson}.

Lemma forceEndChar_nonempty (s : QString.t) :
  s <> [] -> Firebase.forceEndChar s x2f = Ok (Spec.normalizedHost s).
Proof.
  intros Hne. destruct (exists_last Hne) as [p [c ->]].
  unfold Firebase.forceEndChar. rewrite at_last, normalizedHost_snoc.
  fold Spec.slash. destruct (QChar.eqb c Spec.slash); reflexivity.
Qed.

Lemma forceEndChar_empty (endCh : byte) :
  Firebase.forceEndChar [] endCh = IndexOutOfRange 0 (-1).
Proof. reflexivity. Qed.

Lemma normalizedHost_ends (s : QString.t) :
  Spec.endsWith (Spec.normalizedHost s) [Spec.slash].
Proof.
  unfold Spec.normalizedHost, Spec.endsWith.
  destruct (rev s) as [|c r] eqn:E.
  - exists s; reflexivity.
  - destruct (QChar.eqb c Spec.slash) eqn:Ec.
    + apply qchar_eqb_spec in Ec; subst c.
      exists (rev r). rewrite <- (rev_involutive s), E. reflexivity.
    + exists s; reflexivity.
Qed.

Lemma normalizedHost_cases (s : QString.t) :
  (Spec.endsWith s [Spec.slash] -> Spec.normalizedHost s = s)
  /\ (~ Spec.endsWith s [Spec.slash] -> Spec.normalizedHost s = s ++ [Spec.slash]).
Proof.
  unfold Spec.normalizedHost, Spec.endsWith. split.
  - intros [p ->]. rewrite rev_unit.
    unfold QChar.eqb; rewrite N.eqb_refl; reflexivity.
  - intros N. destruct (rev s) as [|c r] eqn:E; [reflexivity|].
    destruct (QChar.eqb c Spec.slash) eqn:Ec; [|reflexivity].
    apply qchar_eqb_spec in Ec; subst c. exfalso; apply N.
    exists (rev r). rewrite <- (rev_involutive s), E. reflexivity.
Qed.

(** C6, as the code has it.  For a host that is not empty once trimmed, the
    constructor stores as endpoint the trimmed host, with a separator added
    only when it does not end with one, followed by the trimmed database
    path; it stores the function host as given and an empty token, and
    leaves the world untouched (no request is issued). *)
Theorem construction_endpoint (hostName firebaseFunctionHost dbPath : QString.t)
        (w : Firebase.World) :
  QString.trimmed hostName <> [] ->
  let host := QString.trimmed hostName in
  Firebase.Firebase hostName firebaseFunctionHost dbPath w
  = (Ok (Firebase.mk firebaseFunctionHost []
           (Spec.endpoint host (QString.trimmed dbPath))), w)
  /\ Spec.endsWith (Spec.normalizedHost host) [Spec.slash]
  /\ (Spec.endsWith host [Spec.slash] -> Spec.normalizedHost host = host)
  /\ (~ Spec.endsWith host [Spec.slash] ->
      Spec.normalizedHost host = host ++ [Spec.slash]).
Proof.
  intros Hne host. split; [|split; [apply normalizedHost_ends | apply normalizedHost_cases]].
  unfold Firebase.Firebase. fold host. rewrite (forceEndChar_nonempty host Hne).
  reflexivity.
Qed.

(** C7, evaluated on the code.  With a host that is empty (or only
    whitespace), [forceEndChar] indexes the empty string at [-1]: the index
    is out of range and the constructor has no defined result. *)
Theorem empty_host_out_of_range (firebaseFunctionHost dbPath : QString.t)
        (w : Firebase.World) :
  Firebase.forceEndChar [] x2f = IndexOutOfRange 0 (-1)
  /\ Firebase.Firebase [] firebaseFunctionHost dbPath w
     = (IndexOutOfRange 0 (-1), w)
  /\ Firebase.Firebase (QString.lit "  ") firebaseFunctionHost dbPath w
     = (IndexOutOfRange 0 (-1), w).
Proof. repeat split. Qed.
End Construction.

Lemma construction_endpoint_witness :
  QString.trimmed (QString.lit "https://x.firebaseio.com") <> []
  /\ Firebase.Firebase (json := refJson)
       (QString.lit "https://x.firebaseio.com") (QString.lit "https://fn.example/")
       (QString.lit "users") (Firebase.mkWorld [] 0)
     = (Ok (Firebase.mk (QString.lit "https://fn.example/") []
              (QString.lit "https://x.firebaseio.com/users")),
        Firebase.mkWorld [] 0).
Proof.
  split; [discriminate|].
  apply (construction_endpoint (json := refJson)
           (QString.lit "https://x.firebaseio.com") (QString.lit "https://fn.example/")
           (QString.lit "users") (Firebase.mkWorld [] 0)).
  discriminate.
Defined.

(** C6 as stated fails on a database path with surrounding whitespace: the
    stored endpoint is not the normalized host followed by the path given. *)
Lemma construction_trims_path :
  let hostName := QString.lit "https://x.firebaseio.com" in
  let dbPath := QString.lit " users" in
  fst (Firebase.run (Firebase.Firebase (json := refJson) hostName [] dbPath))
  = Ok (Firebase.mk [] [] (QString.lit "https://x.firebaseio.com/users"))
  /\ Spec.endpoint hostName dbPath = QString.lit "https://x.firebaseio.com/ users"
  /\ QString.lit "https://x.firebaseio.com/users" <> Spec.endpoint hostName dbPath.
Proof. repeat split. discriminate. Qed.

(** ** [buildPath] *)

Lemma dotJson_test (s : QString.t) :
  s <> Firebase.dotJson ->
  ((QString.length s <=? 5)
   || negb (QString.eqb (QString.right s 5) Firebase.dotJson) = false
   <-> Spec.endsWith s Firebase.dotJson).
Proof.
  intros Hne. unfold QString.length, QString.right.
  change (5 <? 0) with false. cbv iota.
  rewrite orb_false_iff, negb_false_iff, QString_eqb_eq, Z.leb_gt.
  split.
  - intros [Hlen E]. exists (firstn (length s - 5) s).
    rewrite <- E. rewrite lastn_skipn by lia.
    change (Z.to_nat 5) with 5%nat. symmetry; apply firstn_skipn.
  - intros [p ->]. assert (p <> []) as Hp by (intros ->; apply Hne; reflexivity).
    split.
    + rewrite length_app. destruct p; [contradiction|].
      change (length Firebase.dotJson) with 5%nat. simpl; lia.
    + apply (lastn_app_exact p Firebase.dotJson).
Qed.

Lemma query_suffix (destination q : QString.t) :
  (if 0 <? QString.length q
   then QString.append destination (Firebase.forceStartChar q x3f)
   else destination)
  = destination ++ Spec.normalizedQuery q.
Proof.
  destruct q as [|c q]; simpl.
  - symmetry; apply app_nil_r.
  - unfold QString.length. simpl length.
    destruct (Z.ltb_spec 0 (Z.of_nat (S (length q)))); [|lia].
    unfold QString.append, QString.prependChar.
    destruct (QChar.eqb c 63%N); reflexivity.
Qed.

Lemma normalizedQuery_starts (q : QString.t) :
  q <> [] -> exists tl, Spec.normalizedQuery q = QChar.fromLatin1 x3f :: tl.
Proof.
  destruct q as [|c q]; [contradiction|]; intros _. unfold Spec.normalizedQuery.
  destruct (QChar.eqb c (QChar.fromLatin1 x3f)) eqn:E.
  - apply qchar_eqb_spec in E; subst c. exists q; reflexivity.
  - exists (c :: q); reflexivity.
Qed.

Section BuildPath.
Context {json : QJson}.

(** [buildPath] on any endpoint other than the five characters [.json]. *)
Lemma buildPath_cases (this : Firebase.t) (q : QString.t) :
  Firebase.mHost this <> Firebase.dotJson ->
  (Spec.endsWith (Firebase.mHost this) Firebase.dotJson ->
   Firebase.buildPath this q = Firebase.mHost this ++ Spec.normalizedQuery q)
  /\ (~ Spec.endsWith (Firebase.mHost this) Firebase.dotJson ->
      Firebase.buildPath this q
      = Firebase.mHost this ++ Firebase.dotJson ++ Spec.normalizedQuery q).
Proof.
  intros Hne. pose proof (dotJson_test (Firebase.mHost this) Hne) as T.
  unfold Firebase.buildPath. cbv zeta. rewrite query_suffix.
  destruct ((QString.length (Firebase.mHost this) <=? 5)
            || negb (QString.eqb (QString.right (Firebase.mHost this) 5)
                       Firebase.dotJson)) eqn:E.
  - split; intros H.
    + apply T in H; discriminate.
    + unfold QString.append. rewrite <- app_assoc; reflexivity.
  - split; intros H.
    + reflexivity.
    + exfalso; apply H, T; reflexivity.
Qed.

(** Every endpoint the constructor stores contains a separator. *)
Lemma stored_endpoint_has_slash (hostName fn dbPath : QString.t)
      (w w' : Firebase.World) (this : Firebase.t) :
  Firebase.Firebase hostName fn dbPath w = (Ok this, w') ->
  In Spec.slash (Firebase.mHost this).
Proof.
  unfold Firebase.Firebase.
  destruct (QString.trimmed hostName) as [|c s] eqn:Eh.
  - simpl. unfold Firebase.ret. discriminate.
  - rewrite forceEndChar_nonempty by discriminate.
    unfold Firebase.ret. intros E; inversion E; subst; clear E. simpl.
    destruct (normalizedHost_ends (c :: s)) as [p Hp].
    unfold QString.append. rewrite Hp.
    apply in_or_app; left. apply in_or_app; right. left; reflexivity.
Qed.

Lemma stored_endpoint_not_dotJson (hostName fn dbPath : QString.t)
      (w w' : Firebase.World) (this : Firebase.t) :
  Firebase.Firebase hostName fn dbPath w = (Ok this, w') ->
  Firebase.mHost this <> Firebase.dotJson.
Proof.
  intros H E. apply stored_endpoint_has_slash in H. rewrite E in H.
  simpl in H. repeat (destruct H as [H | H]; [discriminate H|]). exact H.
Qed.

(** C2.  For every endpoint stored by the constructor and every query,
    [buildPath] appends [.json] exactly when the endpoint does not already
    end in [.json]; for an endpoint that does, the result is the endpoint
    followed only by the normalized query, and building from the path so
    obtained (as the endpoint) gives the same URL again. *)
Theorem buildPath_suffix (hostName fn dbPath q : QString.t)
        (w w' : Firebase.World) (this : Firebase.t) :
  Firebase.Firebase hostName fn dbPath w = (Ok this, w') ->
  (Firebase.buildPath this q
   = Firebase.mHost this ++ Firebase.dotJson ++ Spec.normalizedQuery q
   <-> ~ Spec.endsWith (Firebase.mHost this) Firebase.dotJson)
  /\ (Spec.endsWith (Firebase.mHost this) Firebase.dotJson ->
      Firebase.buildPath this q = Firebase.mHost this ++ Spec.normalizedQuery q
      /\ Firebase.buildPath
           (Firebase.mk (Firebase.mFirebaseFunctionHost this)
              (Firebase.mFirebaseToken this) (Firebase.buildPath this [])) q
         = Firebase.buildPath this q).
Proof.
  intros Hctor. pose proof (stored_endpoint_not_dotJson _ _ _ _ _ _ Hctor) as Hne.
  destruct (buildPath_cases this q Hne) as [Hyes Hno].
  split; [split|].
  - intros E Hends. rewrite (Hyes Hends) in E.
    apply app_inv_head in E. apply (f_equal (@length _)) in E.
    rewrite length_app in E. change (length Firebase.dotJson) with 5%nat in E. lia.
  - exact Hno.
  - intros Hends. split; [exact (Hyes Hends)|].
    destruct (buildPath_cases this [] Hne) as [Hyes0 _].
    rewrite (Hyes0 Hends). simpl Spec.normalizedQuery. rewrite app_nil_r.
    destruct this; reflexivity.
Qed.
End BuildPath.

Lemma buildPath_suffix_witness :
  let this :=
    Firebase.mk [] [] (QString.lit "https://x.firebaseio.com/users.json") in
  Firebase.Firebase (json := refJson) (QString.lit "https://x.firebaseio.com/") []
    (QString.lit "users.json") (Firebase.mkWorld [] 0)
  = (Ok this, Firebase.mkWorld [] 0)
  /\ (Spec.endsWith (Firebase.mHost this) Firebase.dotJson ->
      Firebase.buildPath this (QString.lit "shallow=true")
      = Firebase.mHost this ++ QString.lit "?shallow=true"
      /\ Firebase.buildPath
           (Firebase.mk [] [] (Firebase.buildPath this []))
           (QString.lit "shallow=true")
         = Firebase.buildPath this (QString.lit "shallow=true")).
Proof.
  intros this. split; [reflexivity|].
  apply (buildPath_suffix (json := refJson) (QString.lit "https://x.firebaseio.com/") []
           (QString.lit "users.json") (QString.lit "shallow=true")
           (Firebase.mkWorld [] 0) (Firebase.mkWorld [] 0) this).
  reflexivity.
Defined.

(** The documented examples of [buildPath], and the one endpoint, never
    stored by the constructor, on which the length test adds a second
    suffix. *)
Example buildPath_root :
  Firebase.buildPath (Firebase.mk [] [] (QString.lit "https://x.firebaseio.com/")) []
  = QString.lit "https://x.firebaseio.com/.json"
  /\ Firebase.buildPath (Firebase.mk [] [] (QString.lit "https://x.firebaseio.com/"))
       (QString.lit "orderBy='name'")
     = QString.lit "https://x.firebaseio.com/.json?orderBy='name'".
Proof. split; reflexivity. Qed.

Example buildPath_bare_suffix :
  Firebase.buildPath (Firebase.mk [] [] Firebase.dotJson) []
  = QString.lit ".json.json".
Proof. reflexivity. Qed.

(** ** Requests *)

Section Requests.
Context {json : QJson}.

Lemma buffer_roundtrip (data : QByteArray.t) :
  QBuffer.upload
    (QBuffer.seek (QBuffer.write (QBuffer.open QBuffer.new) data) 0) = data.
Proof.
  unfold QBuffer.upload, QBuffer.seek, QBuffer.write, QBuffer.open, QBuffer.new.
  simpl. rewrite skipn_nil, app_nil_r. reflexivity.
Qed.

(** C8.  [setValue] hands exactly one request to the network manager: its
    verb is the given verb (as UTF-8), its URL is [buildPath] of the query,
    its only header is [Content-Type: application/x-www-form-urlencoded] and
    its body is the compact serialization of the document.  With the declared
    defaults the verb is [PATCH] and the query is empty. *)
Theorem setValue_request (this : Firebase.t) (jsonDoc : QJsonDocument)
        (verb queryString : QString.t) (w : Firebase.World) :
  Firebase.setValue this jsonDoc verb queryString w
  = (tt,
     Firebase.mkWorld
       (Firebase.effects w
        ++ [Firebase.Request (Utf8.toUtf8 verb)
              (QNetworkRequest.make (Firebase.buildPath this queryString)
                 [(QByteArray.lit "Content-Type",
                   QByteArray.lit "application/x-www-form-urlencoded")])
              (Some (toJsonCompact jsonDoc)) (Firebase.created w)])
       (S (Firebase.created w)))
  /\ Firebase.setValue_default this jsonDoc w
     = (tt,
        Firebase.mkWorld
          (Firebase.effects w
           ++ [Firebase.Request (QByteArray.lit "PATCH")
                 (QNetworkRequest.make (Firebase.buildPath this [])
                    [(QByteArray.lit "Content-Type",
                      QByteArray.lit "application/x-www-form-urlencoded")])
                 (Some (toJsonCompact jsonDoc)) (Firebase.created w)])
          (S (Firebase.created w))).
Proof.
  assert (forall v q,
             Firebase.setValue this jsonDoc v q w
             = (tt,
                Firebase.mkWorld
                  (Firebase.effects w
                   ++ [Firebase.Request (Utf8.toUtf8 v)
                         (QNetworkRequest.make (Firebase.buildPath this q)
                            [(QByteArray.lit "Content-Type",
                              QByteArray.lit "application/x-www-form-urlencoded")])
                         (Some (toJsonCompact jsonDoc)) (Firebase.created w)])
                  (S (Firebase.created w)))) as H.
  { intros v q.
    unfold Firebase.setValue, Firebase.sendCustomRequest, Firebase.issue,
      Firebase.bind, Firebase.ret.
    rewrite buffer_roundtrip. reflexivity. }
  split; [apply H|]. unfold Firebase.setValue_default. rewrite H. reflexivity.
Qed.

(** [open] issues one GET carrying the event-stream header and connects both
    slots to the reply it gets. *)
Lemma open_request (url : QUrl.t) (w : Firebase.World) :
  Firebase.open url w
  = (tt,
     Firebase.mkWorld
       (Firebase.effects w
        ++ [Firebase.Request (QByteArray.lit "GET")
              (QNetworkRequest.make url
                 [(QByteArray.lit "Accept", QByteArray.lit "text/event-stream")])
              None (Firebase.created w);
            Firebase.Connect (Firebase.created w) Firebase.readyRead
              Firebase.slot_eventReadyRead;
            Firebase.Connect (Firebase.created w) Firebase.finished
              Firebase.slot_eventFinished])
       (S (Firebase.created w))).
Proof.
  unfold Firebase.open, Firebase.get, Firebase.issue, Firebase.connect,
    Firebase.bind, Firebase.tell.
  simpl. rewrite <- !app_assoc. reflexivity.
Qed.

(** C5.  When a streaming reply finishes with a non-empty redirection
    target, the slot releases the reply and opens a new streaming GET on the
    target, with the header [Accept: text/event-stream] and both slots
    connected to the new reply; no signal is emitted.  When the target is
    empty, the slot only releases the reply: no request is issued. *)
Theorem eventFinished_redirect (reply : QNetworkReply.t) (w : Firebase.World) :
  let target := QNetworkReply.redirectionTarget reply in
  (QUrl.isEmpty target = false ->
   Firebase.eventFinished (Some reply) w
   = (tt,
      Firebase.mkWorld
        (Firebase.effects w
         ++ [Firebase.DeleteLater (QNetworkReply.handle reply);
             Firebase.Request (QByteArray.lit "GET")
               (QNetworkRequest.make target
                  [(QByteArray.lit "Accept", QByteArray.lit "text/event-stream")])
               None (Firebase.created w);
             Firebase.Connect (Firebase.created w) Firebase.readyRead
               Firebase.slot_eventReadyRead;
             Firebase.Connect (Firebase.created w) Firebase.finished
               Firebase.slot_eventFinished])
        (S (Firebase.created w)))
   /\ Firebase.emitted (snd (Firebase.eventFinished (Some reply) w))
      = Firebase.emitted w)
  /\ (QUrl.isEmpty target = true ->
      Firebase.eventFinished (Some reply) w
      = (tt, Firebase.logged w (Firebase.DeleteLater (QNetworkReply.handle reply)))
      /\ Firebase.requests (snd (Firebase.eventFinished (Some reply) w))
         = Firebase.requests w
      /\ Firebase.emitted (snd (Firebase.eventFinished (Some reply) w))
         = Firebase.emitted w).
Proof.
  intros target. unfold Firebase.eventFinished. fold target. split; intros E; rewrite E.
  - change (negb false) with true. cbv iota.
    unfold Firebase.bind, Firebase.deleteLater, Firebase.tell.
    cbv beta iota. rewrite open_request. simpl. rewrite <- app_assoc. split; [reflexivity|].
    unfold Firebase.emitted. simpl. rewrite flat_map_app. simpl. apply app_nil_r.
  - simpl. unfold Firebase.deleteLater, Firebase.tell, Firebase.logged. simpl.
    split; [reflexivity|]. unfold Firebase.requests, Firebase.emitted. simpl.
    rewrite filter_app, flat_map_app. simpl. rewrite !app_nil_r. split; reflexivity.
Qed.
End Requests.

Lemma eventFinished_redirect_witness :
  let moved := QNetworkReply.make 3 [] (QString.lit "https://y.firebaseio.com/.json") in
  let ended := QNetworkReply.make 3 [] [] in
  (QUrl.isEmpty (QNetworkReply.redirectionTarget moved) = false
   /\ Firebase.run (Firebase.eventFinished (json := refJson) (Some moved))
      = (tt,
         Firebase.mkWorld
           [Firebase.DeleteLater 3;
            Firebase.Request (QByteArray.lit "GET")
              (QNetworkRequest.make (QString.lit "https://y.firebaseio.com/.json")
                 [(QByteArray.lit "Accept", QByteArray.lit "text/event-stream")])
              None 0;
            Firebase.Connect 0 Firebase.readyRead Firebase.slot_eventReadyRead;
            Firebase.Connect 0 Firebase.finished Firebase.slot_eventFinished] 1))
  /\ (QUrl.isEmpty (QNetworkReply.redirectionTarget ended) = true
      /\ Firebase.run (Firebase.eventFinished (json := refJson) (Some ended))
         = (tt, Firebase.mkWorld [Firebase.DeleteLater 3] 0)).
Proof.
  intros moved ended. split; (split; [reflexivity|]).
  - apply (proj1 (eventFinished_redirect (json := refJson) moved (Firebase.mkWorld [] 0))).
    reflexivity.
  - apply (proj2 (eventFinished_redirect (json := refJson) ended (Firebase.mkWorld [] 0))).
    reflexivity.
Defined.

(** * Further properties of the client *)

(** ** Trimming *)

Section StripFacts.
Context {A : Type} (p : A -> bool).

Lemma dropWhile_stop (a b : list A) (h : A) :
  p h = false -> dropWhile p (a ++ h :: b) = dropWhile p a ++ h :: b.
Proof.
  intros Hh. induction a as [|x a IH]; simpl.
  - rewrite Hh; reflexivity.
  - destruct (p x); [exact IH | reflexivity].
Qed.

Lemma dropWhile_all (ws x : list A) :
  forallb p ws = true -> dropWhile p (ws ++ x) = dropWhile p x.
Proof.
  induction ws as [|c ws IH]; simpl; [reflexivity|].
  intros H; apply andb_true_iff in H as [Hc Hws]. rewrite Hc; auto.
Qed.

Lemma dropWhile_head (l t : list A) (h : A) :
  dropWhile p l = h :: t -> p h = false.
Proof.
  induction l as [|x l IH]; simpl; [discriminate|].
  destruct (p x) eqn:E; [exact IH|]. intros H; inversion H; subst; exact E.
Qed.

Lemma dropWhile_split (l : list A) :
  exists pre, forallb p pre = true /\ l = pre ++ dropWhile p l.
Proof.
  induction l as [|x l [pre [Hp Hl]]]; simpl.
  - exists []; split; reflexivity.
  - destruct (p x) eqn:E.
    + exists (x :: pre); simpl; rewrite E, Hp; split; [reflexivity | congruence].
    + exists []; split; reflexivity.
Qed.

Lemma forallb_rev (l : list A) : forallb p l = true -> forallb p (rev l) = true.
Proof.
  intros H. apply forallb_forall. intros x Hx. apply in_rev in Hx.
  revert x Hx. apply forallb_forall. exact H.
Qed.

Lemma strip_head (l tl : list A) (c : A) :
  strip p l = c :: tl -> p c = false.
Proof.
  unfold strip. intros E.
  destruct (dropWhile p l) as [|h t] eqn:D; [discriminate E|].
  pose proof (dropWhile_head _ _ _ D) as Hh.
  simpl rev in E. rewrite (dropWhile_stop (rev t) [] h Hh) in E.
  rewrite rev_unit in E. inversion E; subst; exact Hh.
Qed.

Lemma strip_last (l pre : list A) (c : A) :
  strip p l = pre ++ [c] -> p c = false.
Proof.
  unfold strip. intros E.
  apply (f_equal (@rev A)) in E. rewrite rev_involutive, rev_unit in E.
  exact (dropWhile_head _ _ _ E).
Qed.

(** A list is clean when nothing can be stripped from it. *)
Lemma strip_clean_ends (l : list A) :
  strip p l = l <->
  (forall c tl, l = c :: tl -> p c = false)
  /\ (forall pre c, l = pre ++ [c] -> p c = false).
Proof.
  split.
  - intros E. split.
    + intros c tl H. apply (strip_head l tl). congruence.
    + intros pre c H. apply (strip_last l pre). congruence.
  - intros [Hhead Hlast]. unfold strip.
    assert (dropWhile p l = l) as D1.
    { destruct l as [|c tl]; [reflexivity|]. simpl.
      rewrite (Hhead c tl eq_refl); reflexivity. }
    rewrite D1.
    assert (dropWhile p (rev l) = rev l) as D2.
    { destruct l as [|c tl _] using rev_ind; [reflexivity|].
      rewrite rev_unit. simpl. rewrite (Hlast tl c eq_refl); reflexivity. }
    rewrite D2. apply rev_involutive.
Qed.

Lemma strip_idem (l : list A) : strip p (strip p l) = strip p l.
Proof.
  apply strip_clean_ends. split.
  - intros c tl E. exact (strip_head l tl c E).
  - intros pre c E. exact (strip_last l pre c E).
Qed.

Lemma strip_padded (ws1 v ws2 : list A) :
  forallb p ws1 = true -> forallb p ws2 = true ->
  strip p (ws1 ++ v ++ ws2) = strip p v.
Proof.
  intros H1 H2. unfold strip. rewrite dropWhile_all by exact H1.
  destruct (dropWhile p v) as [|h t] eqn:D.
  - destruct (dropWhile_split v) as [pre [Hpre Hv]]. rewrite D, app_nil_r in Hv.
    subst pre. rewrite dropWhile_all by exact Hpre.
    destruct (dropWhile_split ws2) as [pre2 [_ _]].
    assert (dropWhile p ws2 = []) as ->.
    { rewrite <- (app_nil_r ws2). rewrite dropWhile_all by exact H2. reflexivity. }
    reflexivity.
  - pose proof (dropWhile_head _ _ _ D) as Hh.
    destruct (dropWhile_split v) as [pre [Hpre Hv]]. rewrite D in Hv.
    rewrite Hv at 1. rewrite <- app_assoc.
    rewrite dropWhile_all by exact Hpre.
    simpl. rewrite Hh. change (h :: t ++ ws2) with ((h :: t) ++ ws2).
    rewrite rev_app_distr. rewrite dropWhile_all by (apply forallb_rev; exact H2).
    reflexivity.
Qed.

(** What [strip] removes is made of elements satisfying [p]. *)
Lemma strip_split (l : list A) :
  exists pre post,
    forallb p pre = true /\ forallb p post = true
    /\ l = pre ++ strip p l ++ post.
Proof.
  unfold strip.
  destruct (dropWhile_split l) as [pre [Hpre Hl]].
  destruct (dropWhile_split (rev (dropWhile p l))) as [post [Hpost Hr]].
  exists pre, (rev post). split; [exact Hpre|]. split; [apply forallb_rev; exact Hpost|].
  rewrite <- rev_app_distr, <- Hr, rev_involutive. exact Hl.
Qed.
End StripFacts.

(** ** The two character helpers *)

(** X1.  [forceStartChar] is idempotent; its result is empty only for the
    empty string, otherwise it starts with the wanted character, keeps the
    string given as its suffix and is at most one character longer. *)
Theorem forceStartChar_normal (s : QString.t) (startCh : byte) :
  let r := Firebase.forceStartChar s startCh in
  Firebase.forceStartChar r startCh = r
  /\ (r = [] <-> s = [])
  /\ (forall c tl, r = c :: tl -> c = QChar.fromLatin1 startCh)
  /\ (r = s \/ r = QChar.fromLatin1 startCh :: s)
  /\ (length r <= S (length s))%nat.
Proof.
  unfold Firebase.forceStartChar, QString.prependChar.
  destruct s as [|x s]; simpl.
  - repeat split; auto; try discriminate.
  - destruct (QChar.eqb x (QChar.fromLatin1 startCh)) eqn:E; simpl.
    + rewrite E; simpl. apply qchar_eqb_spec in E; subst x.
      repeat split; auto; try discriminate. intros c tl H; inversion H; reflexivity.
    + unfold QChar.eqb at 1. rewrite N.eqb_refl; simpl.
      repeat split; auto; try discriminate. intros c tl H; inversion H; reflexivity.
Qed.

(** X2.  On a non-empty string [forceEndChar] succeeds for any end
    character: the result ends with that character, is the string itself or
    the string with the character added, and is left as it is by a second
    application. *)
Theorem forceEndChar_normal (s : QString.t) (endCh : byte) :
  s <> [] ->
  exists r,
    Firebase.forceEndChar s endCh = Ok r
    /\ Spec.endsWith r [QChar.fromLatin1 endCh]
    /\ (r = s \/ r = s ++ [QChar.fromLatin1 endCh])
    /\ Firebase.forceEndChar r endCh = Ok r.
Proof.
  intros Hne. destruct (exists_last Hne) as [p [c ->]].
  unfold Firebase.forceEndChar at 1. rewrite at_last.
  destruct (QChar.eqb c (QChar.fromLatin1 endCh)) eqn:E; simpl.
  - exists (p ++ [c]). apply qchar_eqb_spec in E; subst c.
    split; [reflexivity|]. split; [exists p; reflexivity|]. split; [left; reflexivity|].
    unfold Firebase.forceEndChar. rewrite at_last.
    unfold QChar.eqb; rewrite N.eqb_refl; reflexivity.
  - exists (QString.appendChar (p ++ [c]) endCh). unfold QString.appendChar.
    split; [reflexivity|]. split; [exists (p ++ [c]); reflexivity|].
    split; [right; reflexivity|].
    unfold Firebase.forceEndChar. rewrite at_last.
    unfold QChar.eqb; rewrite N.eqb_refl; reflexivity.
Qed.

Lemma forceEndChar_normal_witness :
  QString.lit "a/b" <> []
  /\ exists r,
       Firebase.forceEndChar (QString.lit "a/b") x2f = Ok r
       /\ Spec.endsWith r [QChar.fromLatin1 x2f]
       /\ (r = QString.lit "a/b" \/ r = QString.lit "a/b" ++ [QChar.fromLatin1 x2f])
       /\ Firebase.forceEndChar r x2f = Ok r.
Proof.
  split; [discriminate|].
  apply (forceEndChar_normal (QString.lit "a/b") x2f). discriminate.
Defined.

(** ** [trimValue] and the framing of a data line *)

Lemma afterFirst_split (c : byte) (l : QByteArray.t) (from : Z) :
  In c l ->
  exists key,
    ~ In c key /\ l = key ++ c :: Spec.afterFirst c l
    /\ indexFrom Byte.eqb c l from = from + Z.of_nat (length key).
Proof.
  revert from. induction l as [|x l IH]; intros from Hin; [destruct Hin|].
  simpl. destruct (Byte.eqb x c) eqn:E.
  - apply Byte.byte_dec_bl in E; subst x. exists []. simpl.
    split; [tauto|]. split; [reflexivity | lia].
  - assert (In c l) as Hin'.
    { destruct Hin as [->|?]; [|assumption].
      rewrite (@Byte.byte_dec_lb c c eq_refl) in E; discriminate. }
    destruct (IH (from + 1) Hin') as [key [Hk [Hl Hi]]].
    exists (x :: key). split; [|split].
    + intros [->|?]; [|contradiction].
      rewrite (@Byte.byte_dec_lb c c eq_refl) in E; discriminate.
    + simpl; congruence.
    + rewrite Hi. simpl length. lia.
Qed.

Lemma indexFrom_skip (c : byte) (key rest : QByteArray.t) (from : Z) :
  ~ In c key ->
  indexFrom Byte.eqb c (key ++ c :: rest) from = from + Z.of_nat (length key)
  /\ Spec.afterFirst c (key ++ c :: rest) = rest.
Proof.
  revert from. induction key as [|x key IH]; intros from Hk; simpl.
  - rewrite (@Byte.byte_dec_lb c c eq_refl). split; [lia | reflexivity].
  - destruct (Byte.eqb x c) eqn:E.
    + apply Byte.byte_dec_bl in E; subst x. exfalso; apply Hk; left; reflexivity.
    + destruct (IH (from + 1)) as [Hi Ha]; [intros I; apply Hk; right; exact I|].
      rewrite Hi, Ha. split; [lia | reflexivity].
Qed.

Section Framing.
Context {json : QJson}.

(** X3.  Whenever [trimValue] returns something, the line has the shape
    key, colon, whitespace, value, whitespace, with a non-empty key free of
    colons, and what is returned is the value: it carries no whitespace at
    either end. *)
Theorem trimValue_sound (line : QByteArray.t) :
  Firebase.trimValue line <> [] ->
  exists key pre post,
    key <> [] /\ ~ In x3a key
    /\ forallb QByteArray.isSpace pre = true
    /\ forallb QByteArray.isSpace post = true
    /\ line = key ++ x3a :: pre ++ Firebase.trimValue line ++ post
    /\ QByteArray.trimmed (Firebase.trimValue line) = Firebase.trimValue line.
Proof.
  intros Hne.
  destruct (Z.ltb_spec 0 (QByteArray.indexOf line x3a)) as [Hpos | Hle];
    [|rewrite (trimValue_empty line Hle) in Hne; contradiction].
  rewrite (trimValue_payload line Hpos). unfold Spec.payload, QByteArray.trimmed.
  assert (In x3a line) as Hin.
  { unfold QByteArray.indexOf in Hpos.
    destruct (indexFrom_range Byte.eqb byte_eqb_spec x3a line 0) as [[E _]|[_ I]];
      [lia | lia | exact I]. }
  destruct (afterFirst_split x3a line 0 Hin) as [key [Hk [Hl Hi]]].
  destruct (strip_split QByteArray.isSpace (Spec.afterFirst x3a line))
    as [pre [post [Hpre [Hpost Hs]]]].
  exists key, pre, post. repeat split; try assumption.
  - intros ->. unfold QByteArray.indexOf in Hpos. rewrite Hi in Hpos. simpl in Hpos. lia.
  - rewrite <- Hs. exact Hl.
  - apply strip_idem.
Qed.

(** X4.  Conversely, from a line made of a non-empty key free of colons, a
    colon, whitespace, a value with no whitespace at either end, and
    whitespace, [trimValue] returns exactly the value, whatever colons the
    value itself contains. *)
Theorem trimValue_framed (key pre v post : QByteArray.t) :
  key <> [] -> ~ In x3a key ->
  forallb QByteArray.isSpace pre = true ->
  forallb QByteArray.isSpace post = true ->
  QByteArray.trimmed v = v ->
  Firebase.trimValue (key ++ x3a :: pre ++ v ++ post) = v.
Proof.
  intros Hne Hk Hpre Hpost Hv.
  destruct (indexFrom_skip x3a key (pre ++ v ++ post) 0 Hk) as [Hi Ha].
  rewrite trimValue_payload.
  - unfold Spec.payload, QByteArray.trimmed. rewrite Ha.
    rewrite strip_padded by assumption. exact Hv.
  - unfold QByteArray.indexOf. rewrite Hi. destruct key; [contradiction|]. simpl; lia.
Qed.

(** X5.  A put event framed the way the stream sends it (a field name, a
    colon, the payload, blank line after it) is delivered: when the payload
    parses as a JSON object the slot emits exactly one [eventPut] with that
    object.  The field name is not checked. *)
Theorem framed_put_delivered (h : nat) (key pre v post : QByteArray.t)
        (u : QUrl.t) (w : Firebase.World) :
  key <> [] -> ~ In x3a key ->
  forallb QByteArray.isSpace pre = true ->
  forallb QByteArray.isSpace post = true ->
  QByteArray.trimmed v = v ->
  isObject (fst (fromJson v)) = true ->
  Firebase.eventReadyRead
    (Some (QNetworkReply.make h
             (Firebase.putHeader ++ key ++ x3a :: pre ++ v ++ post) u)) w
  = (Some (QNetworkReply.make h [] u),
     Firebase.logged w
       (Firebase.Emit (Firebase.eventPut (object (fst (fromJson v)))))).
Proof.
  intros Hne Hk Hpre Hpost Hv Hobj.
  pose proof (trimValue_framed key pre v post Hne Hk Hpre Hpost Hv) as Ht.
  rewrite eventReadyRead_put, parsePut_object by (rewrite Ht; exact Hobj).
  rewrite Ht. reflexivity.
Qed.
End Framing.

Lemma trimValue_sound_witness :
  let line := jsonText "data: {'a':1}" ++ [x0a; x0a] in
  Firebase.trimValue line <> []
  /\ exists key pre post,
       key <> [] /\ ~ In x3a key
       /\ forallb QByteArray.isSpace pre = true
       /\ forallb QByteArray.isSpace post = true
       /\ line = key ++ x3a :: pre ++ Firebase.trimValue line ++ post
       /\ QByteArray.trimmed (Firebase.trimValue line) = Firebase.trimValue line.
Proof.
  intros line. split; [discriminate|].
  apply (trimValue_sound line). discriminate.
Defined.

Lemma trimValue_framed_witness :
  let key := QByteArray.lit "data" in
  let v := jsonText "{'path':'/','data':{'a':1}}" in
  (key <> [] /\ ~ In x3a key /\ QByteArray.trimmed v = v)
  /\ Firebase.trimValue (jsonText "data: {'path':'/','data':{'a':1}}" ++ [x0a; x0a]) = v.
Proof.
  intros key v.
  assert (~ In x3a key) as Hk.
  { simpl. intros I. repeat (destruct I as [I | I]; [discriminate I|]). exact I. }
  split; [split; [discriminate | split; [exact Hk | reflexivity]]|].
  apply (trimValue_framed key [x20] v [x0a; x0a]);
    [discriminate | exact Hk | reflexivity | reflexivity | reflexivity].
Defined.

Lemma framed_put_delivered_witness :
  let key := QByteArray.lit "data" in
  let v := jsonText "{'path':'/a','data':null}" in
  (~ In x3a key /\ isObject (fst (fromJson (QJson := refJson) v)) = true)
  /\ Firebase.run
       (Firebase.eventReadyRead (json := refJson)
          (Some (QNetworkReply.make 5
                   (Firebase.putHeader
                    ++ jsonText "data: {'path':'/a','data':null}" ++ [x0a; x0a]) [])))
     = (Some (QNetworkReply.make 5 [] []),
        Firebase.mkWorld
          [Firebase.Emit
             (Firebase.eventPut
                [(QByteArray.lit "path", RefJson.String (QByteArray.lit "/a"));
                 (QByteArray.lit "data", RefJson.Null)])] 0).
Proof.
  intros key v.
  assert (~ In x3a key) as Hk.
  { simpl. intros I. repeat (destruct I as [I | I]; [discriminate I|]). exact I. }
  split; [split; [exact Hk | reflexivity]|].
  apply (framed_put_delivered (json := refJson) 5 key [x20] v [x0a; x0a] []
           (Firebase.mkWorld [] 0));
    [discriminate | exact Hk | reflexivity | reflexivity | reflexivity | reflexivity].
Defined.

(** ** The URL of a database request *)

Section Urls.
Context {json : QJson}.

(** X6.  For any endpoint whatever, the URL built is a path followed by the
    normalized query, where the path ends in [.json] and is the endpoint
    itself or the endpoint with [.json] added; with an empty query the URL
    is that path. *)
Theorem buildPath_shape (this : Firebase.t) (q : QString.t) :
  exists path,
    Firebase.buildPath this q = path ++ Spec.normalizedQuery q
    /\ Firebase.buildPath this [] = path
    /\ Spec.endsWith path Firebase.dotJson
    /\ (path = Firebase.mHost this \/ path = Firebase.mHost this ++ Firebase.dotJson).
Proof.
  unfold Firebase.buildPath. cbv zeta. rewrite !query_suffix.
  simpl Spec.normalizedQuery at 2. rewrite app_nil_r.
  destruct ((QString.length (Firebase.mHost this) <=? 5)
            || negb (QString.eqb (QString.right (Firebase.mHost this) 5)
                       Firebase.dotJson)) eqn:E.
  - exists (QString.append (Firebase.mHost this) Firebase.dotJson).
    repeat split; [exists (Firebase.mHost this); reflexivity | right; reflexivity].
  - exists (Firebase.mHost this). repeat split; [|left; reflexivity].
    apply orb_false_iff in E as [Hlen E]. apply negb_false_iff, QString_eqb_eq in E.
    apply Z.leb_gt in Hlen. unfold QString.length, QString.right in *.
    change (5 <? 0) with false in E. cbv iota in E.
    exists (firstn (length (Firebase.mHost this) - 5) (Firebase.mHost this)).
    rewrite <- E. rewrite lastn_skipn by lia.
    change (Z.to_nat 5) with 5%nat. symmetry; apply firstn_skipn.
Qed.

(** X7.  A leading question mark in the query is optional: a non-empty query
    gives the same URL with or without it. *)
Theorem buildPath_question_mark (this : Firebase.t) (c : QChar.t) (q : QString.t) :
  c <> QChar.fromLatin1 x3f ->
  Firebase.buildPath this (QChar.fromLatin1 x3f :: c :: q)
  = Firebase.buildPath this (c :: q).
Proof.
  intros Hc. unfold Firebase.buildPath. cbv zeta. rewrite !query_suffix.
  f_equal. unfold Spec.normalizedQuery.
  unfold QChar.eqb at 1. rewrite N.eqb_refl.
  destruct (QChar.eqb c (QChar.fromLatin1 x3f)) eqn:E; [|reflexivity].
  apply qchar_eqb_spec in E; contradiction.
Qed.
End Urls.

Lemma buildPath_question_mark_witness :
  QChar.fromLatin1 x73 <> QChar.fromLatin1 x3f
  /\ Firebase.buildPath (Firebase.mk [] [] (QString.lit "https://x.firebaseio.com/a"))
       (QString.lit "?shallow=true")
     = Firebase.buildPath (Firebase.mk [] [] (QString.lit "https://x.firebaseio.com/a"))
         (QString.lit "shallow=true").
Proof.
  split; [discriminate|].
  apply (buildPath_question_mark
           (Firebase.mk [] [] (QString.lit "https://x.firebaseio.com/a"))
           (QChar.fromLatin1 x73) (QString.lit "hallow=true")).
  discriminate.
Defined.

(** ** What each method and slot adds to the world *)

Section Effects.
Context {json : QJson}.

Lemma setValue_effects (this : Firebase.t) (jsonDoc : QJsonDocument)
      (verb q : QString.t) (w : Firebase.World) :
  Firebase.setValue this jsonDoc verb q w
  = (tt,
     Firebase.mkWorld
       (Firebase.effects w
        ++ [Firebase.Request (Utf8.toUtf8 verb)
              (QNetworkRequest.make (Firebase.buildPath this q)
                 [(QByteArray.lit "Content-Type",
                   QByteArray.lit "application/x-www-form-urlencoded")])
              (Some (toJsonCompact jsonDoc)) (Firebase.created w)])
       (S (Firebase.created w))).
Proof.
  unfold Firebase.setValue, Firebase.sendCustomRequest, Firebase.issue,
    Firebase.bind, Firebase.ret.
  rewrite buffer_roundtrip. reflexivity.
Qed.

Lemma getValue_effects (this : Firebase.t) (q : QString.t) (w : Firebase.World) :
  Firebase.getValue this q w
  = (tt,
     Firebase.mkWorld
       (Firebase.effects w
        ++ [Firebase.Request (QByteArray.lit "GET")
              (QNetworkRequest.make (Firebase.buildPath this q) [])
              None (Firebase.created w);
            Firebase.Connect (Firebase.created w) Firebase.finished
              Firebase.slot_getValueLambda])
       (S (Firebase.created w))).
Proof.
  unfold Firebase.getValue, Firebase.get, Firebase.issue, Firebase.connect,
    Firebase.bind, Firebase.tell.
  simpl. rewrite <- app_assoc. reflexivity.
Qed.

Lemma callFunction_effects (this : Firebase.t) (f : QString.t) (w : Firebase.World) :
  Firebase.callFunction this f w
  = (tt,
     Firebase.mkWorld
       (Firebase.effects w
        ++ [Firebase.Request (QByteArray.lit "GET")
              (QNetworkRequest.make (Firebase.mFirebaseFunctionHost this ++ f) [])
              None (Firebase.created w);
            Firebase.Connect (Firebase.created w) Firebase.finished
              Firebase.slot_functionFinished])
       (S (Firebase.created w))).
Proof.
  unfold Firebase.callFunction, Firebase.get, Firebase.issue, Firebase.connect,
    Firebase.bind, Firebase.tell.
  simpl. rewrite <- app_assoc. reflexivity.
Qed.

Lemma functionFinished_effects (reply : QNetworkReply.t) (w : Firebase.World) :
  Firebase.functionFinished reply w
  = (Firebase.drained reply,
     Firebase.mkWorld
       (Firebase.effects w
        ++ [Firebase.Emit (Firebase.functionResponseReady (QNetworkReply.available reply));
            Firebase.DeleteLater (QNetworkReply.handle reply)])
       (Firebase.created w)).
Proof.
  unfold Firebase.functionFinished, QNetworkReply.readAll, Firebase.emit,
    Firebase.deleteLater, Firebase.bind, Firebase.tell, Firebase.ret.
  simpl. rewrite <- app_assoc. reflexivity.
Qed.

Lemma requests_app (w : Firebase.World) (l : list Firebase.Effect) (n : nat) :
  Firebase.requests (Firebase.mkWorld (Firebase.effects w ++ l) n)
  = Firebase.requests w ++ Session.requestsOf l.
Proof. unfold Firebase.requests, Session.requestsOf. simpl. apply filter_app. Qed.

(** X8.  [getPath] tells the URL the requests use: [getValue],
    [listenEvents] and [setValue] each issue exactly one request, to the URL
    [getPath] returns for the same query. *)
Theorem requests_use_getPath (this : Firebase.t) (jsonDoc : QJsonDocument)
        (verb q : QString.t) (w : Firebase.World) :
  let url := Firebase.getPath this q in
  Firebase.requests (snd (Firebase.getValue this q w))
  = Firebase.requests w
    ++ [Firebase.Request (QByteArray.lit "GET") (QNetworkRequest.make url [])
          None (Firebase.created w)]
  /\ Firebase.requests (snd (Firebase.listenEvents this q w))
     = Firebase.requests w
       ++ [Firebase.Request (QByteArray.lit "GET")
             (QNetworkRequest.make url
                [(QByteArray.lit "Accept", QByteArray.lit "text/event-stream")])
             None (Firebase.created w)]
  /\ Firebase.requests (snd (Firebase.setValue this jsonDoc verb q w))
     = Firebase.requests w
       ++ [Firebase.Request (Utf8.toUtf8 verb)
             (QNetworkRequest.make url
                [(QByteArray.lit "Content-Type",
                  QByteArray.lit "application/x-www-form-urlencoded")])
             (Some (toJsonCompact jsonDoc)) (Firebase.created w)].
Proof.
  intros url. unfold url, Firebase.getPath, Firebase.listenEvents.
  rewrite getValue_effects, open_request, setValue_effects.
  unfold snd. rewrite !requests_app. repeat split.
Qed.

(** The readiness slot adds nothing, or one signal of the stream, or one
    warning. *)
Lemma eventReadyRead_delta (sender : option QNetworkReply.t) (w : Firebase.World) :
  exists l,
    snd (Firebase.eventReadyRead sender w)
    = Firebase.mkWorld (Firebase.effects w ++ l) (Firebase.created w)
    /\ (l = [] \/ l = [Firebase.Emit Firebase.eventKeepAlive]
        \/ (exists o, l = [Firebase.Emit (Firebase.eventPut o)])
        \/ (exists line, l = [Firebase.Warning line])).
Proof.
  assert (Firebase.mkWorld (Firebase.effects w ++ []) (Firebase.created w) = w) as Hw
      by (rewrite app_nil_r; destruct w; reflexivity).
  destruct sender as [r|]; [|exists []; rewrite Hw; auto].
  destruct (fst (QNetworkReply.readLine r)) as [|c ev] eqn:E.
  - exists []. rewrite Hw. split; [|auto].
    unfold Firebase.eventReadyRead.
    destruct (QNetworkReply.readLine r) as [ev r1]. simpl in E; subst ev. reflexivity.
  - rewrite eventReadyRead_dispatch by (rewrite E; discriminate). rewrite E.
    unfold snd at 1.
    destruct (QByteArray.eqb (c :: ev) Firebase.keepAliveHeader).
    + eexists; split; [reflexivity | auto].
    + destruct (QByteArray.eqb (c :: ev) Firebase.putHeader).
      * unfold Firebase.parsePut.
        destruct (fromJson _) as [doc err]. destruct (isObject doc); simpl.
        -- eexists; split; [reflexivity|]. right; right; left; eauto.
        -- eexists; split; [reflexivity|]. right; right; right; eauto.
      * eexists; split; [reflexivity|]. right; right; right; eauto.
Qed.
End Effects.

(** ** Any sequence of calls *)

Section Sessions.
Context {json : QJson}.

Ltac delta_side :=
  simpl; repeat split; try lia;
  try (intros b H; simpl in H; intuition discriminate);
  try (intros _; repeat constructor; simpl; auto).

Lemma call_delta (this : Firebase.t) (c : Session.Call) (w : Firebase.World) :
  exists l,
    Firebase.effects (snd (Session.call this c w)) = Firebase.effects w ++ l
    /\ (length (Session.signalsOf l) <= 1)%nat
    /\ (length (Session.requestsOf l) <= 1)%nat
    /\ (forall b, ~ In (Firebase.eventResponseReady b) (Session.signalsOf l))
    /\ (Session.isSetValue c = false -> Forall Session.plainGet l).
Proof.
  destruct c as [doc verb q | q | q | f | reply | | sender | sender]; simpl Session.call.
  - rewrite setValue_effects. eexists; split; [reflexivity|].
    delta_side.
  - rewrite getValue_effects. eexists; split; [reflexivity|]. delta_side.
  - unfold Firebase.listenEvents. rewrite open_request.
    eexists; split; [reflexivity|]. delta_side.
  - rewrite callFunction_effects. eexists; split; [reflexivity|]. delta_side.
  - unfold Firebase.bind. rewrite functionFinished_effects.
    eexists; split; [reflexivity|]. delta_side.
  - exists [Firebase.Debug [Firebase.Text "No getValue reply implementation"]].
    split; [reflexivity|]. delta_side.
  - unfold Firebase.eventFinished. destruct sender as [reply|].
    + destruct (QUrl.isEmpty (QNetworkReply.redirectionTarget reply)).
      * exists [Firebase.DeleteLater (QNetworkReply.handle reply)].
        split; [reflexivity|]. delta_side.
      * change (negb false) with true. cbv iota.
        unfold Firebase.bind, Firebase.deleteLater, Firebase.tell. cbv beta iota.
        rewrite open_request. simpl. rewrite <- app_assoc.
        eexists; split; [reflexivity|]. delta_side.
    + exists []. split; [simpl; symmetry; apply app_nil_r|]. delta_side.
  - unfold Firebase.bind.
    destruct (eventReadyRead_delta sender w) as [l [Hl Hcase]].
    destruct (Firebase.eventReadyRead sender w) as [r w1]. simpl in Hl. subst w1.
    exists l. split; [reflexivity|].
    destruct Hcase as [-> | [-> | [[o ->] | [line ->]]]]; delta_side.
Qed.

Lemma calls_delta (this : Firebase.t) (cs : list Session.Call) (w : Firebase.World) :
  exists l,
    Firebase.effects (snd (Session.calls this cs w)) = Firebase.effects w ++ l
    /\ (length (Session.signalsOf l) <= length cs)%nat
    /\ (length (Session.requestsOf l) <= length cs)%nat
    /\ (forall b, ~ In (Firebase.eventResponseReady b) (Session.signalsOf l))
    /\ (forallb (fun c => negb (Session.isSetValue c)) cs = true ->
        Forall Session.plainGet l).
Proof.
  revert w. induction cs as [|c cs IH]; intros w.
  - exists []. split; [simpl; symmetry; apply app_nil_r|]. delta_side.
  - simpl Session.calls. unfold Firebase.bind.
    destruct (call_delta this c w) as [l1 [E1 [S1 [R1 [N1 G1]]]]].
    destruct (Session.call this c w) as [u w1]. simpl in E1.
    destruct (IH w1) as [l2 [E2 [S2 [R2 [N2 G2]]]]].
    exists (l1 ++ l2). split; [rewrite E2, E1, app_assoc; reflexivity|].
    unfold Session.signalsOf, Session.requestsOf in *.
    rewrite flat_map_app, filter_app, !length_app. simpl length.
    split; [lia|]. split; [lia|]. split.
    + intros b H. apply in_app_or in H as [H|H]; [exact (N1 b H) | exact (N2 b H)].
    + simpl. intros H. apply andb_true_iff in H as [Hc Hcs].
      apply Forall_app. split; [apply G1; apply negb_true_iff; exact Hc | apply G2; exact Hcs].
Qed.

(** X9.  Whatever methods are called and whatever replies the slots are run
    on, each call emits at most one signal, and the signal
    [eventResponseReady] is never emitted. *)
Theorem signals_of_a_session (this : Firebase.t) (cs : list Session.Call)
        (w : Firebase.World) :
  exists l,
    Firebase.effects (snd (Session.calls this cs w)) = Firebase.effects w ++ l
    /\ Firebase.emitted (snd (Session.calls this cs w))
       = Firebase.emitted w ++ Session.signalsOf l
    /\ (length (Session.signalsOf l) <= length cs)%nat
    /\ (forall b, ~ In (Firebase.eventResponseReady b) (Session.signalsOf l)).
Proof.
  destruct (calls_delta this cs w) as [l [E [S [_ [N _]]]]].
  exists l. split; [exact E|]. split; [|split; assumption].
  unfold Firebase.emitted. rewrite E. apply flat_map_app.
Qed.

(** X10.  Whatever methods are called and whatever replies the slots are
    run on, each call issues at most one request, and as long as [setValue]
    is not called every request issued is a GET without a body. *)
Theorem requests_of_a_session (this : Firebase.t) (cs : list Session.Call)
        (w : Firebase.World) :
  exists l,
    Firebase.effects (snd (Session.calls this cs w)) = Firebase.effects w ++ l
    /\ (length (Session.requestsOf l) <= length cs)%nat
    /\ (forallb (fun c => negb (Session.isSetValue c)) cs = true ->
        Forall Session.plainGet l).
Proof.
  destruct (calls_delta this cs w) as [l [E [_ [R [_ G]]]]].
  exists l. repeat split; assumption.
Qed.
End Sessions.

(** ** One readiness notification, one event at most *)

Section Draining.
Context {json : QJson}.

(** X11.  The readiness slot leaves no byte unread: whatever the reply held,
    afterwards it has nothing available, so running the slot again before
    new bytes arrive changes nothing.  Events that follow the first one in
    the same chunk are therefore never dispatched. *)
Theorem eventReadyRead_drains (r : QNetworkReply.t) (w : Firebase.World) :
  exists r',
    fst (Firebase.eventReadyRead (Some r) w) = Some r'
    /\ QNetworkReply.available r' = []
    /\ QNetworkReply.handle r' = QNetworkReply.handle r
    /\ Firebase.eventReadyRead (Some r') (snd (Firebase.eventReadyRead (Some r) w))
       = (Some r', snd (Firebase.eventReadyRead (Some r) w)).
Proof.
  destruct (fst (QNetworkReply.readLine r)) as [|c ev] eqn:E.
  - exists r.
    assert (QNetworkReply.available r = []) as Hnil.
    { unfold QNetworkReply.readLine in E. apply splitLine_nil.
      destruct (QNetworkReply.splitLine (QNetworkReply.available r)); exact E. }
    assert (forall w0, Firebase.eventReadyRead (Some r) w0 = (Some r, w0)) as Hidle.
    { intros w0. unfold Firebase.eventReadyRead, QNetworkReply.readLine.
      rewrite Hnil. simpl. destruct r; simpl in Hnil; subst; reflexivity. }
    rewrite Hidle. simpl. repeat split; [exact Hnil | apply Hidle].
  - exists (Firebase.drained r).
    rewrite eventReadyRead_dispatch by (rewrite E; discriminate).
    repeat split.
Qed.
End Draining.

(** ** Construction, again *)

Lemma slash_not_space : QChar.isSpace Spec.slash = false.
Proof. reflexivity. Qed.

Lemma normalizedHost_clean (t : QString.t) :
  t <> [] -> QString.trimmed t = t ->
  QString.trimmed (Spec.normalizedHost t) = Spec.normalizedHost t.
Proof.
  intros Hne Ht. unfold QString.trimmed in *.
  apply strip_clean_ends in Ht as [Hhead Hlast].
  apply strip_clean_ends.
  destruct (exists_last Hne) as [p [c Hc]]. subst t.
  rewrite normalizedHost_snoc.
  destruct (QChar.eqb c Spec.slash); [split; assumption|].
  split.
  - intros x tl E. destruct p as [|y p]; simpl in E; inversion E; subst.
    + apply (Hhead x [] eq_refl).
    + apply (Hhead x (p ++ [c]) eq_refl).
  - intros pre x E. apply app_inj_tail in E as [_ <-]. exact slash_not_space.
Qed.

Lemma normalizedHost_idem (t : QString.t) :
  Spec.normalizedHost (Spec.normalizedHost t) = Spec.normalizedHost t.
Proof.
  destruct (normalizedHost_cases (Spec.normalizedHost t)) as [H _].
  apply H, normalizedHost_ends.
Qed.

Lemma normalizedHost_nonempty (t : QString.t) : Spec.normalizedHost t <> [].
Proof.
  destruct (normalizedHost_ends t) as [p Hp]. rewrite Hp.
  intros E. apply app_eq_nil in E as [_ E]. discriminate.
Qed.

(** A suffix that does not contain the separator lies inside the path. *)
Lemma endsWith_after_slash (H P suffix : QString.t) :
  Spec.endsWith H [Spec.slash] -> ~ In Spec.slash suffix ->
  (Spec.endsWith (H ++ P) suffix <-> Spec.endsWith P suffix).
Proof.
  intros [h ->] Hs. unfold Spec.endsWith. split.
  - intros [x E]. apply app_eq_app in E as [l [[E1 E2] | [E1 E2]]].
    + destruct l as [|y l _] using rev_ind.
      * exists []. rewrite E2; reflexivity.
      * exfalso. rewrite app_assoc in E1. apply app_inj_tail in E1 as [_ <-].
        apply Hs. rewrite E2. apply in_or_app; left. apply in_or_app; right.
        left; reflexivity.
    + exists l. exact E2.
  - intros [x ->]. exists ((h ++ [Spec.slash]) ++ x). rewrite app_assoc; reflexivity.
Qed.

Section ConstructionAgain.
Context {json : QJson}.

(** X12.  The constructor does not see whitespace around its host or its
    database path: it gives the same result, success or failure, on the
    trimmed strings. *)
Theorem construction_ignores_whitespace (hostName fn dbPath : QString.t)
        (w : Firebase.World) :
  Firebase.Firebase hostName fn dbPath w
  = Firebase.Firebase (QString.trimmed hostName) fn (QString.trimmed dbPath) w.
Proof.
  unfold Firebase.Firebase, QString.trimmed. rewrite !strip_idem. reflexivity.
Qed.

(** X13.  Writing the final separator of the host oneself makes no
    difference: for a host that is not empty once trimmed, the client built
    from the host as normalized is the client built from the host. *)
Theorem construction_slash_optional (hostName fn dbPath : QString.t)
        (w : Firebase.World) :
  QString.trimmed hostName <> [] ->
  Firebase.Firebase (Spec.normalizedHost (QString.trimmed hostName)) fn dbPath w
  = Firebase.Firebase hostName fn dbPath w.
Proof.
  intros Hne. unfold Firebase.Firebase.
  rewrite normalizedHost_clean
    by (assumption || (unfold QString.trimmed; apply strip_idem)).
  rewrite (forceEndChar_nonempty _ (normalizedHost_nonempty _)).
  rewrite (forceEndChar_nonempty _ Hne).
  rewrite normalizedHost_idem. reflexivity.
Qed.

(** X14.  The URL of a database request, end to end: for a client built
    from a host and a database path, it is the trimmed host with its
    separator, the trimmed path, [.json] unless the path already ends in
    it, and the normalized query. *)
Theorem database_url (hostName fn dbPath q : QString.t) (w w' : Firebase.World)
        (this : Firebase.t) :
  Firebase.Firebase hostName fn dbPath w = (Ok this, w') ->
  let host := Spec.normalizedHost (QString.trimmed hostName) in
  let path := QString.trimmed dbPath in
  (Spec.endsWith path Firebase.dotJson ->
   Firebase.buildPath this q = host ++ path ++ Spec.normalizedQuery q)
  /\ (~ Spec.endsWith path Firebase.dotJson ->
      Firebase.buildPath this q
      = host ++ path ++ Firebase.dotJson ++ Spec.normalizedQuery q).
Proof.
  intros Hctor host path.
  pose proof (stored_endpoint_not_dotJson _ _ _ _ _ _ Hctor) as Hne.
  destruct (buildPath_cases this q Hne) as [Hyes Hno].
  assert (Firebase.mHost this = host ++ path) as Hm.
  { unfold Firebase.Firebase in Hctor.
    destruct (QString.trimmed hostName) as [|c s] eqn:Eh;
      [simpl in Hctor; unfold Firebase.ret in Hctor; discriminate|].
    rewrite forceEndChar_nonempty in Hctor by discriminate.
    unfold Firebase.ret in Hctor. inversion Hctor; subst. reflexivity. }
  assert (Spec.endsWith (host ++ path) Firebase.dotJson
          <-> Spec.endsWith path Firebase.dotJson) as Hiff.
  { apply endsWith_after_slash; [apply normalizedHost_ends|].
    simpl. intros I. repeat (destruct I as [I | I]; [discriminate I|]). exact I. }
  rewrite Hm in Hyes, Hno. split; intros Hp.
  - rewrite Hyes by (apply Hiff; exact Hp). rewrite <- app_assoc. reflexivity.
  - rewrite Hno by (intros H; apply Hp, Hiff; exact H).
    rewrite <- app_assoc. reflexivity.
Qed.
End ConstructionAgain.

Lemma construction_slash_optional_witness :
  QString.trimmed (QString.lit " https://x.firebaseio.com ") <> []
  /\ Firebase.Firebase (json := refJson) (QString.lit "https://x.firebaseio.com/") []
       (QString.lit "users") (Firebase.mkWorld [] 0)
     = Firebase.Firebase (json := refJson) (QString.lit " https://x.firebaseio.com ") []
         (QString.lit "users") (Firebase.mkWorld [] 0).
Proof.
  split; [discriminate|].
  apply (construction_slash_optional (json := refJson)
           (QString.lit " https://x.firebaseio.com ") [] (QString.lit "users")
           (Firebase.mkWorld [] 0)).
  discriminate.
Defined.

Lemma database_url_witness :
  let this := Firebase.mk [] [] (QString.lit "https://x.firebaseio.com/users") in
  Firebase.Firebase (json := refJson) (QString.lit "https://x.firebaseio.com") []
    (QString.lit " users ") (Firebase.mkWorld [] 0)
  = (Ok this, Firebase.mkWorld [] 0)
  /\ Firebase.buildPath this (QString.lit "shallow=true")
     = QString.lit "https://x.firebaseio.com/users.json?shallow=true".
Proof.
  intros this. split; [reflexivity|].
  apply (proj2 (database_url (json := refJson) (QString.lit "https://x.firebaseio.com") []
                  (QString.lit " users ") (QString.lit "shallow=true")
                  (Firebase.mkWorld [] 0) (Firebase.mkWorld [] 0) this eq_refl)).
  intros [p E]. destruct p as [|c p]; [discriminate E|].
  apply (f_equal (@length QChar.t)) in E. rewrite length_app in E.
  simpl in E. lia.
Defined.
